(** * QueryInterface: the mock result queue of sequelize-mock

    A shallow embedding of [src/queryinterface.js].  A [QueryInterface] is a
    mutable JavaScript object: it is kept in a store indexed by object
    identity, and parent links are references into that store, so that two
    children sharing a parent, or a parent chain that loops, are
    representable.  The four methods are store transformers; the recursive
    ones ([$query] and [$clearQueue] call the same method on the parent)
    take a bound on the depth of the call stack. *)

From stdpp Require Import gmap strings list fin_maps.

Open Scope string_scope.
#[local] Set Warnings "-register-all".

(** ** JavaScript values *)

(** Modelled from the spec: the module [./errors] is not among the sources.
    Of its constructors the file calls three: [BaseError], the generic
    wrapper put around a failure payload that is not an error, and the two
    errors of the queue itself, [InvalidQueryResultError] and
    [EmptyQueryQueueError]; the values they build are error-typed and can be
    told apart by their class.  [TypeError] is the native class, and
    [CustomError] any other class derived from [Error]. *)
Inductive errclass :=
| BaseError
| InvalidQueryResultError
| EmptyQueryQueueError
| TypeError
| CustomError (name : string).

(** Identity of a [QueryInterface] object. *)
Abbreviation qid := nat (only parsing).

(** The values that reach the queue.  Numbers are restricted to integers;
    a function is known by its name only; plain objects are records of own
    data properties, in insertion order. *)
Inductive value :=
| VUndefined
| VNull
| VBool (b : bool)
| VNum (n : Z)
| VStr (s : string)
| VFun (f : string)
| VArr (items : list value)
| VObj (fields : list (string * value))
| VErr (cls : errclass) (payload : value)
| VQueue (q : qid).

(** [function QueryInterface (options)]: the two own properties. *)
Record QueryInterface := mkQueryInterface {
  options : value;
  _results : list value
}.

(** The store: the [QueryInterface] objects alive, by identity. *)
Abbreviation heap := (gmap nat QueryInterface) (only parsing).

(** JavaScript's [ToBoolean]; [!!v] is [truthy v] and [!v] is
    [negb (truthy v)]. *)
Definition truthy (v : value) : bool :=
  match v with
  | VUndefined | VNull => false
  | VBool b => b
  | VNum n => negb (n =? 0)%Z
  | VStr s => negb (String.eqb s "")
  | VFun _ | VArr _ | VObj _ | VErr _ _ | VQueue _ => true
  end.

(** [typeof v]. *)
Definition typeof (v : value) : string :=
  match v with
  | VUndefined => "undefined"
  | VNull => "object"
  | VBool _ => "boolean"
  | VNum _ => "number"
  | VStr _ => "string"
  | VFun _ => "function"
  | VArr _ | VObj _ | VErr _ _ | VQueue _ => "object"
  end.

(** [v instanceof Error] and [v instanceof Array]. *)
Definition instanceof_Error (v : value) : bool :=
  match v with VErr _ _ => true | _ => false end.

Definition instanceof_Array (v : value) : bool :=
  match v with VArr _ => true | _ => false end.

(** [v === 'lit'] for a string literal, and [v !== false]. *)
Definition is_string (v : value) (lit : string) : bool :=
  match v with VStr s => String.eqb s lit | _ => false end.

Definition is_not_false (v : value) : bool :=
  match v with VBool false => false | _ => true end.

(** [x || {}]. *)
Definition or_empty (v : value) : value :=
  if truthy v then v else VObj [].

(** First binding of a property name in an object literal. *)
Fixpoint lookup_field (p : string) (fs : list (string * value)) : option value :=
  match fs with
  | [] => None
  | (k, v) :: fs' => if String.eqb k p then Some v else lookup_field p fs'
  end.

(** ** Completions *)

(** A function either returns or throws; [exn A] is the result of an
    expression whose evaluation may throw. *)
Inductive exn (A : Type) :=
| Ok (a : A)
| Raise (e : value).
Arguments Ok {A} a.
Arguments Raise {A} e.

Definition bind {A B : Type} (m : exn A) (k : A -> exn B) : exn B :=
  match m with
  | Ok a => k a
  | Raise e => Raise e
  end.

Notation "x <- m ;; k" := (bind m (fun x => k))
  (at level 100, m at next level, right associativity).

(** The property read [v.p] on the names this file reads ([type],
    [content], [options], the option names, and the method names [$query]
    and [$clearQueue] on a parent that is not a [QueryInterface]): own
    properties; reading from [undefined] or [null] throws a [TypeError].
    None of those names is a built-in or prototype property of a primitive,
    an array, a function or an error, so the read gives [undefined] there.
    The own properties of a [QueryInterface] are in the store. *)
Definition get_prop (h : heap) (v : value) (p : string) : exn value :=
  match v with
  | VUndefined | VNull => Raise (VErr TypeError VUndefined)
  | VObj fs => Ok (default VUndefined (lookup_field p fs))
  | VQueue q =>
      match h !! q with
      | Some Q =>
          if String.eqb p "options" then Ok (options Q)
          else if String.eqb p "_results" then Ok (VArr (_results Q))
          else Ok VUndefined
      | None => Ok VUndefined
      end
  | _ => Ok VUndefined
  end.

(** What a method hands back.  The promise library and the functions
    passed in are not part of this file: their calls are recorded as they
    are made. *)
Inductive retval :=
| Plain (v : value)                          (* an ordinary value *)
| Resolved (v : value)                       (* bluebird.resolve(v) *)
| Rejected (v : value)                       (* bluebird.reject(v) *)
| Called (f : string) (args : list value).   (* whatever f(args) gives *)

Inductive completion :=
| Return (r : retval)
| Throw (e : value).

Definition run (m : exn retval) : completion :=
  match m with
  | Ok r => Return r
  | Raise e => Throw e
  end.

(** ** The methods of [QueryInterface] *)

Definition set_results (Q : QueryInterface) (rs : list value) : QueryInterface :=
  mkQueryInterface (options Q) rs.

(** [this._results.push(e)]. *)
Definition push (Q : QueryInterface) (e : value) : QueryInterface :=
  set_results Q (_results Q ++ [e]).

(** [new QueryInterface(options)]: a fresh object with
    [this.options = options || {}] and [this._results = []]. *)
Definition new_QueryInterface (h : heap) (opts : value) : qid * heap :=
  let q := fresh (dom h) in
  (q, <[q := mkQueryInterface (or_empty opts) []]> h).

(** The object literal [{content: c, options: options || {}, type: ty}]. *)
Definition entry (ty : string) (c opts : value) : value :=
  VObj [("content", c); ("options", or_empty opts); ("type", VStr ty)].

(** [$queueResult(result, options)]. *)
Definition queueResult (h : heap) (this : qid) (result opts : value)
  : option (completion * heap) :=
  match h !! this with
  | None => None
  | Some Q =>
      Some (Return (Plain (VQueue this)),
            <[this := push Q (entry "Success" result opts)]> h)
  end.

(** The guard of [$queueFailure]:
    [(!options || options.convertNonErrors !== false) && !(error instanceof Error)]. *)
Definition converts (h : heap) (error opts : value) : exn bool :=
  allowed <- (if negb (truthy opts) then Ok true
              else (c <- get_prop h opts "convertNonErrors";; Ok (is_not_false c)));;
  Ok (allowed && negb (instanceof_Error error)).

(** The content [$queueFailure] stores: [new Errors.BaseError(error)] when
    the guard holds, [error] otherwise. *)
Definition failure_content (h : heap) (error opts : value) : exn value :=
  b <- converts h error opts;;
  Ok (if b then VErr BaseError error else error).

(** [$queueFailure(error, options)], also bound to [$queueError]. *)
Definition queueFailure (h : heap) (this : qid) (error opts : value)
  : option (completion * heap) :=
  match h !! this with
  | None => None
  | Some Q =>
      match failure_content h error opts with
      | Raise e => Some (Throw e, h)
      | Ok error' =>
          Some (Return (Plain (VQueue this)),
                <[this := push Q (entry "Failure" error' opts)]> h)
      end
  end.

Definition queueError := queueFailure.

(** A call [f(args)] of a value: the callee is outside this file, so the
    call is recorded; calling a non-function throws. *)
Definition call_fn (f : value) (args : list value) : completion :=
  match f with
  | VFun name => Return (Called name args)
  | _ => Throw (VErr TypeError VUndefined)
  end.

(** The condition of [$clearQueue]'s [if]:
    [options.propagateClear && this.options.parent]; gives the parent when
    the condition is truthy. *)
Definition propagate_to (h : heap) (opts thisopts : value) : exn (option value) :=
  pc <- get_prop h opts "propagateClear";;
  if truthy pc then
    p <- get_prop h thisopts "parent";;
    Ok (if truthy p then Some p else None)
  else Ok None.

(** [$clearQueue(options)].  [depth] bounds the call stack; [None] stands
    for a stack that would grow beyond it, for a reference to no object, and
    for a parent that is not a [QueryInterface] but carries a function of
    its own under [$clearQueue], whose effect is unknown. *)
Fixpoint clearQueue (depth : nat) (h : heap) (this : qid) (opts : value)
  : option (completion * heap) :=
  match depth with
  | 0 => None
  | S depth' =>
      match h !! this with
      | None => None
      | Some Q =>
          let opts := or_empty opts in
          let h1 := <[this := set_results Q []]> h in
          match propagate_to h1 opts (options Q) with
          | Raise e => Some (Throw e, h1)
          | Ok None => Some (Return (Plain (VQueue this)), h1)
          | Ok (Some (VQueue parent)) =>
              match clearQueue depth' h1 parent opts with
              | Some (Return _, h2) => Some (Return (Plain (VQueue this)), h2)
              | other => other
              end
          | Ok (Some p) =>
              match get_prop h1 p "$clearQueue" with
              | Ok (VFun _) => None
              | _ => Some (Throw (VErr TypeError VUndefined), h1)
              end
          end
      end
  end.

(** [var fallbackFn = options.fallbackFn || this.options.fallbackFn]. *)
Definition pick_fallback (h : heap) (opts thisopts : value) : exn value :=
  f <- get_prop h opts "fallbackFn";;
  if truthy f then Ok f else get_prop h thisopts "fallbackFn".

(** The created flag of the [includeCreated] branch. *)
Definition created_flag (createdDefault wasCreated : value) : bool :=
  let created := true in
  let created :=
    if negb (String.eqb (typeof createdDefault) "undefined")
    then truthy createdDefault else created in
  if negb (String.eqb (typeof wasCreated) "undefined")
  then truthy wasCreated else created.

(** What [$query] does with the entry it has just shifted off
    [this._results].  Once the guard has passed, [result.type] is one of the
    two strings, where [==] and [===] agree. *)
Definition settle (h : heap) (opts thisopts result : value) : exn retval :=
  if negb (String.eqb (typeof result) "object")
  then Raise (VErr InvalidQueryResultError VUndefined)
  else
    ty <- get_prop h result "type";;
    if negb (is_string ty "Failure" || is_string ty "Success")
    then Raise (VErr InvalidQueryResultError VUndefined)
    else if is_string ty "Failure" then
      c <- get_prop h result "content";;
      Ok (Rejected c)
    else
      ic <- get_prop h opts "includeCreated";;
      if truthy ic then
        cd <- get_prop h thisopts "createdDefault";;
        ro <- get_prop h result "options";;
        wc <- get_prop h ro "wasCreated";;
        c <- get_prop h result "content";;
        Ok (Resolved (VArr [c; VBool (created_flag cd wc)]))
      else
        ia <- get_prop h opts "includeAffectedRows";;
        if truthy ia then
          ro <- get_prop h result "options";;
          ar <- get_prop h ro "affectedRows";;
          c <- get_prop h result "content";;
          Ok (Resolved (VArr [c; if instanceof_Array ar then ar else VArr []]))
        else
          c <- get_prop h result "content";;
          Ok (Resolved c).

(** The condition of the first [else if] of [$query]:
    [!options.stopPropagation && !this.options.stopPropagation &&
     this.options.parent]; gives the parent when the condition is truthy. *)
Definition delegate_to (h : heap) (opts thisopts : value) : exn (option value) :=
  sp <- get_prop h opts "stopPropagation";;
  if truthy sp then Ok None
  else
    sq <- get_prop h thisopts "stopPropagation";;
    if truthy sq then Ok None
    else
      p <- get_prop h thisopts "parent";;
      Ok (if truthy p then Some p else None).

(** [$query(options)].  [depth] bounds the call stack; [None] stands for a
    stack that would grow beyond it and for a reference to no object. *)
Fixpoint query (depth : nat) (h : heap) (this : qid) (opts : value)
  : option (completion * heap) :=
  match depth with
  | 0 => None
  | S depth' =>
      match h !! this with
      | None => None
      | Some Q =>
          let opts := or_empty opts in
          match pick_fallback h opts (options Q) with
          | Raise e => Some (Throw e, h)
          | Ok fallbackFn =>
              match _results Q with
              | result :: rest =>
                  let h1 := <[this := set_results Q rest]> h in
                  Some (run (settle h1 opts (options Q) result), h1)
              | [] =>
                  match delegate_to h opts (options Q) with
                  | Raise e => Some (Throw e, h)
                  | Ok (Some (VQueue parent)) => query depth' h parent opts
                  | Ok (Some p) =>
                      match get_prop h p "$query" with
                      | Ok m => Some (call_fn m [opts], h)
                      | Raise e => Some (Throw e, h)
                      end
                  | Ok None =>
                      if truthy fallbackFn then Some (call_fn fallbackFn [], h)
                      else Some (Throw (VErr EmptyQueryQueueError VUndefined), h)
                  end
              end
          end
      end
  end.

(** ** Sequences of calls *)

(** One enqueue call of the public interface. *)
Inductive enqueue :=
| QueueResult (content meta : value)
| QueueFailure (content meta : value).

Definition do_enqueue (h : heap) (this : qid) (call : enqueue)
  : option (completion * heap) :=
  match call with
  | QueueResult c meta => queueResult h this c meta
  | QueueFailure c meta => queueFailure h this c meta
  end.

(** The calls of a list, one after the other, on the same queue. *)
Fixpoint enqueue_all (h : heap) (this : qid) (calls : list enqueue) : option heap :=
  match calls with
  | [] => Some h
  | call :: calls' =>
      match do_enqueue h this call with
      | Some (_, h1) => enqueue_all h1 this calls'
      | None => None
      end
  end.

(** [n] consecutive [$query()] calls, with what each of them gave. *)
Fixpoint query_all (depth n : nat) (h : heap) (this : qid)
  : option (list completion * heap) :=
  match n with
  | 0 => Some ([], h)
  | S n' =>
      match query depth h this VUndefined with
      | None => None
      | Some (c, h1) =>
          match query_all depth n' h1 this with
          | None => None
          | Some (cs, h2) => Some (c :: cs, h2)
          end
      end
  end.

(** The content an enqueue call stores, and the completion of the [$query]
    that consumes it. *)
Definition stored_content (h : heap) (call : enqueue) : exn value :=
  match call with
  | QueueResult c _ => Ok c
  | QueueFailure c meta => failure_content h c meta
  end.

Definition scripted (h : heap) (call : enqueue) : completion :=
  match call, stored_content h call with
  | _, Raise e => Throw e
  | QueueResult _ _, Ok c => Return (Resolved c)
  | QueueFailure _ _, Ok c => Return (Rejected c)
  end.

(** ** Predicates on the store *)

(** The flag [v.p] reads as a falsy, respectively truthy, value. *)
Definition is_off (h : heap) (v : value) (p : string) : bool :=
  match get_prop h v p with
  | Ok x => negb (truthy x)
  | Raise _ => false
  end.

Definition is_on (h : heap) (v : value) (p : string) : bool :=
  match get_prop h v p with
  | Ok x => truthy x
  | Raise _ => false
  end.

(** Queue [A] has nothing pending and a call [A.$query(opts)] is handed to
    its parent [B]. *)
Definition delegating (h : heap) (opts : value) (A B : qid) : Prop :=
  exists Q, h !! A = Some Q /\ _results Q = [] /\
    is_off h (or_empty opts) "stopPropagation" = true /\
    is_off h (options Q) "stopPropagation" = true /\
    get_prop h (options Q) "parent" = Ok (VQueue B).

(** [k] delegations in a row lead from one queue to another. *)
Inductive delegation_path (h : heap) (opts : value) : nat -> qid -> qid -> Prop :=
| path_here q : delegation_path h opts 0 q q
| path_up k A B C :
    delegating h opts A B -> delegation_path h opts k B C ->
    delegation_path h opts (S k) A C.

(** The parents of a queue, up to one that has none. *)
Inductive parent_chain (h : heap) : list qid -> Prop :=
| chain_root q Q :
    h !! q = Some Q -> is_off h (options Q) "parent" = true ->
    parent_chain h [q]
| chain_step q Q B l :
    h !! q = Some Q -> get_prop h (options Q) "parent" = Ok (VQueue B) ->
    parent_chain h (B :: l) -> parent_chain h (q :: B :: l).

(** The store with the pending entries of the listed queues dropped. *)
Definition clear_one (q : qid) (h : heap) : heap :=
  match h !! q with
  | Some Q => <[q := set_results Q []]> h
  | None => h
  end.

Fixpoint clear_all (l : list qid) (h : heap) : heap :=
  match l with
  | [] => h
  | q :: l' => clear_all l' (clear_one q h)
  end.

(** What an enqueue call appends to the pending entries. *)
Definition stores (h : heap) (call : enqueue) (e : value) : Prop :=
  match call with
  | QueueResult c meta => e = entry "Success" c meta
  | QueueFailure c meta =>
      exists c', failure_content h c meta = Ok c' /\ e = entry "Failure" c' meta
  end.

(** Depth of the nesting of error wrappers around a value. *)
Fixpoint err_depth (v : value) : nat :=
  match v with
  | VErr _ payload => S (err_depth payload)
  | _ => 0
  end.

(** ** Stores used as examples *)

(** One queue, built with no options, nothing pending. *)
Definition store_alone : heap :=
  <[0 := mkQueryInterface (VObj []) []]> ∅.

(** Queue 1 is a child of queue 0 and has a fallback configured; the parent
    has one result pending. *)
Definition store_family : heap :=
  <[1 := mkQueryInterface (VObj [("parent", VQueue 0); ("fallbackFn", VFun "fb")]) []]>
    (<[0 := mkQueryInterface (VObj []) [entry "Success" (VStr "v") VUndefined]]> ∅).

(** The same family with nothing pending anywhere. *)
Definition store_exhausted : heap :=
  <[1 := mkQueryInterface (VObj [("parent", VQueue 0); ("fallbackFn", VFun "fb")]) []]>
    (<[0 := mkQueryInterface (VObj []) []]> ∅).

(** A child with nothing pending and no fallback, under a parent that has a
    result pending. *)
Definition store_busy_parent : heap :=
  <[1 := mkQueryInterface (VObj [("parent", VQueue 0)]) []]>
    (<[0 := mkQueryInterface (VObj []) [entry "Success" (VStr "v") VUndefined]]> ∅).

(** A queue configured with [createdDefault: true], holding a result queued
    with [wasCreated: false]. *)
Definition store_created : heap :=
  <[0 := mkQueryInterface (VObj [("createdDefault", VBool true)])
           [entry "Success" (VStr "v") (VObj [("wasCreated", VBool false)])]]> ∅.

(** A queue whose oldest entry was not put there by the public methods. *)
Definition store_corrupt : heap :=
  <[0 := mkQueryInterface (VObj [])
           [VNum 7; entry "Success" (VStr "next") VUndefined]]> ∅.

(** Child and parent, both with entries pending. *)
Definition store_busy : heap :=
  <[1 := mkQueryInterface (VObj [("parent", VQueue 0)])
           [entry "Success" (VStr "a") VUndefined]]>
    (<[0 := mkQueryInterface (VObj []) [entry "Success" (VStr "b") VUndefined]]> ∅).

(** Two stores that differ in pending entries only. *)
Definition same_options (h h' : heap) : Prop :=
  forall q, options <$> (h !! q) = options <$> (h' !! q).

(** ** Sets of queues closed under the parent link *)



(** ** Kinds of completion *)



(** ** More stores used as examples *)


(** Two children of one parent; the parent has two results pending. *)
Definition store_siblings : heap :=
  <[2 := mkQueryInterface (VObj [("parent", VQueue 0)]) []]>
    (<[1 := mkQueryInterface (VObj [("parent", VQueue 0)]) []]>
       (<[0 := mkQueryInterface (VObj [])
                 [entry "Success" (VStr "first") VUndefined;
                  entry "Success" (VStr "second") VUndefined]]> ∅)).

(** A queue whose [parent] option is a number, with an entry pending. *)
Definition store_bad_parent : heap :=
  <[0 := mkQueryInterface (VObj [("parent", VNum 5)])
           [entry "Success" (VStr "a") VUndefined]]> ∅.

(** The same queue with nothing pending. *)
Definition store_bad_parent_empty : heap :=
  <[0 := mkQueryInterface (VObj [("parent", VNum 5)]) []]> ∅.

(** A queue with a fallback configured and nothing pending. *)
Definition store_fallback : heap :=
  <[0 := mkQueryInterface (VObj [("fallbackFn", VFun "configured")]) []]> ∅.

(** A queue whose configured fallback is not a function. *)
Definition store_fallback_string : heap :=
  <[0 := mkQueryInterface (VObj [("fallbackFn", VStr "nope")]) []]> ∅.

(** A queue whose oldest entry is [null]. *)
Definition store_null : heap :=
  <[0 := mkQueryInterface (VObj []) [VNull; entry "Success" (VStr "next") VUndefined]]> ∅.

(** A queue holding a hand-made entry that has a tag and a content but no
    [options]. *)
Definition store_bare : heap :=
  <[0 := mkQueryInterface (VObj [])
           [VObj [("content", VStr "c"); ("type", VStr "Success")]]]> ∅.

(** A queue holding a result queued with [affectedRows]. *)
Definition store_rows : heap :=
  <[0 := mkQueryInterface (VObj [])
           [entry "Success" (VStr "v")
              (VObj [("affectedRows", VArr [VNum 1; VNum 2])])]]> ∅.

(** ** Basic facts *)

Lemma truthy_or_empty v : truthy (or_empty v) = true.
Proof. unfold or_empty. destruct (truthy v) eqn:E; [exact E | reflexivity]. Qed.

Lemma or_empty_idem v : or_empty (or_empty v) = or_empty v.
Proof. unfold or_empty at 1. now rewrite truthy_or_empty. Qed.

Lemma get_prop_truthy h v p : truthy v = true -> exists x, get_prop h v p = Ok x.
Proof.
  destruct v; simpl; try discriminate; intros _; eauto.
  destruct (h !! q); eauto.
  destruct (String.eqb p "options"); eauto.
  destruct (String.eqb p "_results"); eauto.
Qed.

Lemma same_options_refl h : same_options h h.
Proof. intros q. reflexivity. Qed.

Lemma same_options_trans h1 h2 h3 :
  same_options h1 h2 -> same_options h2 h3 -> same_options h1 h3.
Proof. intros H12 H23 q. now rewrite H12. Qed.

Lemma same_options_insert h q Q rs :
  h !! q = Some Q -> same_options h (<[q := set_results Q rs]> h).
Proof.
  intros HQ q'. destruct (decide (q = q')) as [<- | Hne].
  - now rewrite lookup_insert_eq, HQ.
  - now rewrite lookup_insert_ne.
Qed.

Create HintDb store.
#[local] Hint Resolve same_options_refl same_options_insert : store.

Lemma get_prop_same_options h h' v p :
  same_options h h' -> p <> "_results" -> get_prop h v p = get_prop h' v p.
Proof.
  intros Hs Hp. destruct v; simpl; try reflexivity.
  specialize (Hs q).
  apply String.eqb_neq in Hp. rewrite Hp.
  destruct (h !! q) as [Q |], (h' !! q) as [Q' |]; simpl in Hs;
    try discriminate; try reflexivity.
  injection Hs as ->. reflexivity.
Qed.

Lemma is_on_same_options h h' v p :
  same_options h h' -> p <> "_results" -> is_on h v p = is_on h' v p.
Proof. intros Hs Hp. unfold is_on. now rewrite (get_prop_same_options h h'). Qed.

Lemma is_off_same_options h h' v p :
  same_options h h' -> p <> "_results" -> is_off h v p = is_off h' v p.
Proof. intros Hs Hp. unfold is_off. now rewrite (get_prop_same_options h h'). Qed.

(** Brings a read made in a store whose pending entries have changed back
    to the store [h] it started from. *)
Ltac read_in h :=
  first [ rewrite <- (is_on_same_options h)
        | rewrite <- (is_off_same_options h)
        | rewrite <- (get_prop_same_options h) ];
  [| solve [auto with store] | done].

Lemma get_prop_shift h q Q rs v p :
  h !! q = Some Q -> p <> "_results" ->
  get_prop (<[q := set_results Q rs]> h) v p = get_prop h v p.
Proof.
  intros HQ Hp. symmetry. apply get_prop_same_options; [| exact Hp].
  now apply same_options_insert.
Qed.

Lemma is_off_ok h v p : is_off h v p = true ->
  exists x, get_prop h v p = Ok x /\ truthy x = false.
Proof.
  unfold is_off. destruct (get_prop h v p) as [x | e]; [| discriminate].
  intros H. exists x. split; [reflexivity |]. now destruct (truthy x).
Qed.

Lemma is_on_ok h v p : is_on h v p = true ->
  exists x, get_prop h v p = Ok x /\ truthy x = true.
Proof.
  unfold is_on. destruct (get_prop h v p) as [x | e]; [| discriminate].
  intros H. now exists x.
Qed.

(** The constructor gives a new object, with truthy options and nothing
    pending; the methods never change the options. *)
Lemma new_QueryInterface_spec h opts :
  let (q, h') := new_QueryInterface h opts in
  h !! q = None /\
  exists Q, h' !! q = Some Q /\ truthy (options Q) = true /\ _results Q = [].
Proof.
  unfold new_QueryInterface. split.
  - apply not_elem_of_dom, is_fresh.
  - eexists. split; [apply lookup_insert_eq |]. split; [| reflexivity].
    apply truthy_or_empty.
Qed.

(** Reading a property succeeds, or fails, whatever the name. *)
Lemma get_prop_ok_any h v p p' x :
  get_prop h v p = Ok x -> exists y, get_prop h v p' = Ok y.
Proof.
  destruct v; simpl; try discriminate; intros _; eauto.
  destruct (h !! q); eauto.
  destruct (String.eqb p' "options"); eauto.
  destruct (String.eqb p' "_results"); eauto.
Qed.

(** The callee sees [options || {}], which it normalises again. *)
Lemma query_or_empty d h q opts : query d h q (or_empty opts) = query d h q opts.
Proof. destruct d; simpl; [reflexivity |]. now rewrite or_empty_idem. Qed.

Lemma clearQueue_or_empty d h q opts :
  clearQueue d h q (or_empty opts) = clearQueue d h q opts.
Proof. destruct d; simpl; [reflexivity |]. now rewrite or_empty_idem. Qed.

(** ** Consuming the head of the pending entries *)

Lemma wrapper_neq e : VErr BaseError e <> e.
Proof. intros H. apply (f_equal err_depth) in H. simpl in H. lia. Qed.

Lemma pick_fallback_ok h opts thisopts :
  truthy thisopts = true ->
  exists f, pick_fallback h (or_empty opts) thisopts = Ok f.
Proof.
  intros Ht. unfold pick_fallback.
  destruct (get_prop_truthy h (or_empty opts) "fallbackFn" (truthy_or_empty opts))
    as [f ->].
  simpl. destruct (truthy f); [eauto |].
  now apply get_prop_truthy.
Qed.

(** With entries pending, [$query] shifts the oldest one off before it looks
    at it. *)
Lemma query_shift d h q Q r rest opts :
  h !! q = Some Q -> _results Q = r :: rest -> truthy (options Q) = true ->
  query (S d) h q opts =
  Some (run (settle (<[q := set_results Q rest]> h) (or_empty opts) (options Q) r),
        <[q := set_results Q rest]> h).
Proof.
  intros HQ Hr Ht. simpl. rewrite HQ.
  destruct (pick_fallback_ok h opts (options Q) Ht) as [f ->].
  now rewrite Hr.
Qed.

Lemma tagged_is_object h r tag :
  get_prop h r "type" = Ok (VStr tag) -> exists fs, r = VObj fs.
Proof.
  destruct r; simpl; try discriminate; eauto.
  destruct (h !! q); simpl; discriminate.
Qed.

Lemma settle_failure h opts thisopts r c :
  get_prop h r "type" = Ok (VStr "Failure") ->
  get_prop h r "content" = Ok c ->
  settle h opts thisopts r = Ok (Rejected c).
Proof.
  intros Hty Hc. destruct (tagged_is_object _ _ _ Hty) as [fs ->].
  unfold settle. simpl typeof. simpl negb. cbv iota.
  rewrite Hty. cbn [bind is_string String.eqb Ascii.eqb Bool.eqb orb negb].
  now rewrite Hc.
Qed.

Lemma settle_plain h opts thisopts r c :
  get_prop h r "type" = Ok (VStr "Success") ->
  get_prop h r "content" = Ok c ->
  is_off h opts "includeCreated" = true ->
  is_off h opts "includeAffectedRows" = true ->
  settle h opts thisopts r = Ok (Resolved c).
Proof.
  intros Hty Hc Hic Hia. destruct (tagged_is_object _ _ _ Hty) as [fs ->].
  apply is_off_ok in Hic as (ic & Hic & Tic).
  apply is_off_ok in Hia as (ia & Hia & Tia).
  unfold settle. simpl typeof. simpl negb. cbv iota.
  rewrite Hty. cbn [bind is_string String.eqb Ascii.eqb Bool.eqb orb negb].
  rewrite Hic. cbn [bind]. rewrite Tic.
  rewrite Hia. cbn [bind]. rewrite Tia. now rewrite Hc.
Qed.

(** ** Failure normalisation *)

Lemma conversion_guard h e o :
  exists b, converts h e o = Ok b /\
    (b = true <->
     (o = VUndefined \/ get_prop h o "convertNonErrors" <> Ok (VBool false)) /\
     instanceof_Error e = false).
Proof.
  unfold converts. destruct (truthy o) eqn:To; simpl.
  - destruct (get_prop_truthy h o "convertNonErrors" To) as [x Hx].
    rewrite Hx. simpl. eexists. split; [reflexivity |].
    rewrite andb_true_iff, negb_true_iff.
    assert (is_not_false x = true <-> x <> VBool false) as Hnf.
    { destruct x as [| | [] | | | | | | |]; simpl; split; congruence. }
    rewrite Hnf. split.
    + intros [Hx' He]. split; [right; congruence | exact He].
    + intros [[-> | Hx'] He]; [discriminate |]. split; [congruence | exact He].
  - eexists. split; [reflexivity |].
    rewrite negb_true_iff. split.
    + intros He. split; [| exact He].
      destruct o; simpl in *; try discriminate; auto; right; discriminate.
    + now intros [_ He].
Qed.

Lemma failure_content_spec h e o :
  exists stored, failure_content h e o = Ok stored /\
    (stored = VErr BaseError e <->
     (o = VUndefined \/ get_prop h o "convertNonErrors" <> Ok (VBool false)) /\
     instanceof_Error e = false) /\
    (stored <> VErr BaseError e -> stored = e).
Proof.
  unfold failure_content.
  destruct (conversion_guard h e o) as (b & -> & Hb). simpl.
  eexists. split; [reflexivity |]. destruct b.
  - split; [| congruence]. split; [intros _; now apply Hb | reflexivity].
  - split; [| reflexivity]. split.
    + intros H. symmetry in H. now apply wrapper_neq in H.
    + intros H. apply Hb in H. discriminate.
Qed.

Lemma failure_content_cases h e o stored :
  failure_content h e o = Ok stored -> stored = e \/ stored = VErr BaseError e.
Proof.
  unfold failure_content. destruct (converts h e o) as [[] | x]; simpl;
    intros H; [right | left | discriminate]; congruence.
Qed.

Lemma failure_content_same_options h h' e o :
  same_options h h' -> failure_content h e o = failure_content h' e o.
Proof.
  intros Hs. unfold failure_content, converts.
  now rewrite (get_prop_same_options h h' o "convertNonErrors" Hs).
Qed.

Lemma settle_created h opts thisopts c meta w cd :
  is_on h opts "includeCreated" = true ->
  get_prop h (or_empty meta) "wasCreated" = Ok w ->
  get_prop h thisopts "createdDefault" = Ok cd ->
  settle h opts thisopts (entry "Success" c meta) =
  Ok (Resolved (VArr [c; VBool (created_flag cd w)])).
Proof.
  intros Hic Hw Hcd. apply is_on_ok in Hic as (ic & Hic & Tic).
  unfold settle, entry. simpl typeof. simpl negb. cbv iota.
  change (get_prop h (VObj ?fs) "type") with (@Ok value (VStr "Success")).
  cbn [bind is_string String.eqb Ascii.eqb Bool.eqb orb negb].
  rewrite Hic. cbn [bind]. rewrite Tic, Hcd. cbn [bind].
  change (get_prop h (VObj _) "options") with (@Ok value (or_empty meta)).
  cbn [bind]. rewrite Hw. reflexivity.
Qed.

Lemma query_head_failure h q Q r c rest opts d :
  h !! q = Some Q -> _results Q = r :: rest -> truthy (options Q) = true ->
  get_prop h r "type" = Ok (VStr "Failure") ->
  get_prop h r "content" = Ok c ->
  query (S d) h q opts = Some (Return (Rejected c), <[q := set_results Q rest]> h).
Proof.
  intros HQ Hr Ht Hty Hc. rewrite (query_shift d h q Q r rest opts HQ Hr Ht).
  rewrite (settle_failure _ _ _ r c); [reflexivity | |];
    rewrite get_prop_shift; done.
Qed.

Lemma query_head_plain h q Q r c rest opts d :
  h !! q = Some Q -> _results Q = r :: rest -> truthy (options Q) = true ->
  get_prop h r "type" = Ok (VStr "Success") ->
  get_prop h r "content" = Ok c ->
  is_off h (or_empty opts) "includeCreated" = true ->
  is_off h (or_empty opts) "includeAffectedRows" = true ->
  query (S d) h q opts = Some (Return (Resolved c), <[q := set_results Q rest]> h).
Proof.
  intros HQ Hr Ht Hty Hc Hic Hia.
  rewrite (query_shift d h q Q r rest opts HQ Hr Ht).
  rewrite (settle_plain _ _ _ r c); [reflexivity | | | |];
    unfold is_off; rewrite get_prop_shift; done.
Qed.

(** ** Sequences of enqueue calls followed by queries *)

Lemma set_results_same Q : set_results Q (_results Q) = Q.
Proof. now destruct Q. Qed.

Lemma do_enqueue_spec h q Q call :
  h !! q = Some Q ->
  exists e, stores h call e /\
    do_enqueue h q call = Some (Return (Plain (VQueue q)), <[q := push Q e]> h).
Proof.
  intros HQ. destruct call as [c meta | c meta]; simpl.
  - unfold queueResult. rewrite HQ. eexists. split; reflexivity.
  - unfold queueFailure. rewrite HQ.
    destruct (failure_content_spec h c meta) as (c' & Hc' & _).
    rewrite Hc'. eexists. split; [| reflexivity]. now exists c'.
Qed.

Lemma stores_same_options h h' call e :
  same_options h h' -> stores h' call e -> stores h call e.
Proof.
  intros Hs. destruct call as [c meta | c meta]; simpl; [done |].
  intros (c' & Hc' & ->). exists c'. split; [| done].
  now rewrite (failure_content_same_options h h').
Qed.

Lemma enqueue_all_spec h0 q calls : forall h Q,
  same_options h0 h -> h !! q = Some Q ->
  exists es, Forall2 (stores h0) calls es /\
    enqueue_all h q calls = Some (<[q := set_results Q (_results Q ++ es)]> h).
Proof.
  induction calls as [| call calls IH]; intros h Q Hs HQ.
  - exists []. split; [constructor |]. simpl.
    rewrite app_nil_r, set_results_same. now rewrite insert_id.
  - destruct (do_enqueue_spec h q Q call HQ) as (e & He & Hdo).
    destruct (IH (<[q := push Q e]> h) (push Q e)) as (es & Hes & Hall).
    { eapply same_options_trans; [exact Hs |]. now apply same_options_insert. }
    { apply lookup_insert_eq. }
    exists (e :: es). split.
    + constructor; [| exact Hes]. now apply (stores_same_options h0 h).
    + simpl. rewrite Hdo, Hall. rewrite insert_insert_eq.
      unfold push, set_results. simpl. now rewrite <- app_assoc.
Qed.

Lemma query_all_spec h0 q d calls es :
  Forall2 (stores h0) calls es -> forall h Q,
  same_options h0 h -> h !! q = Some Q -> _results Q = es ->
  truthy (options Q) = true ->
  query_all (S d) (length calls) h q =
  Some (map (scripted h0) calls, <[q := set_results Q []]> h).
Proof.
  induction 1 as [| call e calls es Hst _ IH]; intros h Q Hs HQ Hr Ht.
  - simpl. rewrite <- Hr, set_results_same. now rewrite insert_id.
  - cbn [length query_all].
    assert (query (S d) h q VUndefined =
            Some (scripted h0 call, <[q := set_results Q es]> h)) as ->.
    { destruct call as [c meta | c meta].
      - simpl in Hst. subst e.
        now apply (query_head_plain h q Q (entry "Success" c meta) c es).
      - destruct Hst as (c' & Hc' & ->). unfold scripted. simpl. rewrite Hc'.
        now apply (query_head_failure h q Q (entry "Failure" c' meta) c' es). }
    rewrite (IH (<[q := set_results Q es]> h) (set_results Q es)).
    + simpl. now rewrite insert_insert_eq.
    + eapply same_options_trans; [exact Hs |]. now apply same_options_insert.
    + apply lookup_insert_eq.
    + reflexivity.
    + exact Ht.
Qed.

(** ** Delegation to the parent *)

Lemma delegating_pick_fallback h opts Q B :
  get_prop h (options Q) "parent" = Ok (VQueue B) ->
  exists f, pick_fallback h (or_empty opts) (options Q) = Ok f.
Proof.
  intros Hp. unfold pick_fallback.
  destruct (get_prop_truthy h (or_empty opts) "fallbackFn" (truthy_or_empty opts))
    as [f ->].
  simpl. destruct (truthy f); [eauto |].
  exact (get_prop_ok_any h _ _ "fallbackFn" _ Hp).
Qed.

Lemma delegate_to_parent h o t p :
  is_off h o "stopPropagation" = true ->
  is_off h t "stopPropagation" = true ->
  get_prop h t "parent" = Ok p -> truthy p = true ->
  delegate_to h o t = Ok (Some p).
Proof.
  intros Ho Ht Hp Tp.
  apply is_off_ok in Ho as (x & Hx & Tx). apply is_off_ok in Ht as (y & Hy & Ty).
  unfold delegate_to. rewrite Hx. cbn [bind]. rewrite Tx, Hy. cbn [bind].
  rewrite Ty, Hp. cbn [bind]. now rewrite Tp.
Qed.

Lemma delegate_to_none h opts t :
  is_on h (or_empty opts) "stopPropagation" = true \/
  is_on h t "stopPropagation" = true \/
  is_off h t "parent" = true ->
  delegate_to h (or_empty opts) t = Ok None.
Proof.
  intros H. unfold delegate_to.
  destruct (get_prop_truthy h (or_empty opts) "stopPropagation"
              (truthy_or_empty opts)) as [x Hx].
  rewrite Hx. cbn [bind]. destruct (truthy x) eqn:Tx; [reflexivity |].
  destruct H as [H | [H | H]].
  - unfold is_on in H. rewrite Hx in H. congruence.
  - apply is_on_ok in H as (y & Hy & Ty). rewrite Hy. cbn [bind]. now rewrite Ty.
  - apply is_off_ok in H as (p & Hp & Tp).
    destruct (get_prop_ok_any h t "parent" "stopPropagation" p Hp) as [y Hy].
    rewrite Hy. cbn [bind]. destruct (truthy y); [reflexivity |].
    rewrite Hp. cbn [bind]. now rewrite Tp.
Qed.

Lemma delegating_step h opts A B d :
  delegating h opts A B -> query (S d) h A opts = query d h B opts.
Proof.
  intros (Q & HQ & Hr & Ho & Ht & Hp). simpl. rewrite HQ.
  destruct (delegating_pick_fallback h opts Q B Hp) as [f ->].
  rewrite Hr, (delegate_to_parent h _ _ (VQueue B) Ho Ht Hp eq_refl).
  apply query_or_empty.
Qed.

Lemma delegation_path_query h opts k A C :
  delegation_path h opts k A C ->
  forall d, query (k + d) h A opts = query d h C opts.
Proof.
  induction 1 as [q | k A B C HAB _ IH]; intros d; [reflexivity |].
  cbn [Nat.add]. rewrite (delegating_step h opts A B _ HAB). apply IH.
Qed.

(** A call of [$query] changes the store in one place at most: the queue
    that had an entry pending loses its oldest one. *)
Lemma query_effect d : forall h q opts c h',
  query d h q opts = Some (c, h') ->
  h' = h \/
  exists C QC r rest, h !! C = Some QC /\ _results QC = r :: rest /\
    h' = <[C := set_results QC rest]> h.
Proof.
  induction d as [| d IH]; intros h q opts c h' H; [discriminate |].
  simpl in H.
  destruct (h !! q) as [Q |] eqn:HQ; [| discriminate].
  destruct (pick_fallback h (or_empty opts) (options Q)) as [f | e];
    [| injection H as _ <-; now left].
  destruct (_results Q) as [| r rest] eqn:Hr.
  - destruct (delegate_to h (or_empty opts) (options Q)) as [[p |] | e].
    + destruct p; try (destruct (get_prop h _ "$query");
        injection H as _ <-; now left).
      eapply IH, H.
    + destruct (truthy f); injection H as _ <-; now left.
    + injection H as _ <-. now left.
  - injection H as _ <-. right. now exists q, Q, r, rest.
Qed.

Lemma query_keeps_empty d h A QA opts c h' :
  h !! A = Some QA -> _results QA = [] ->
  query d h A opts = Some (c, h') -> h' !! A = Some QA.
Proof.
  intros HA Hr H. apply query_effect in H as [-> | (C & QC & r & rest & HC & HrC & ->)];
    [exact HA |].
  destruct (decide (C = A)) as [-> | Hne].
  - rewrite HA in HC. injection HC as <-. rewrite Hr in HrC. discriminate.
  - now rewrite lookup_insert_ne.
Qed.

(** Where delegation stops on an empty queue, the fallback is chosen from
    the call's options and that queue's configuration. *)
Lemma query_exhausted h q Q opts fb d :
  h !! q = Some Q -> _results Q = [] ->
  delegate_to h (or_empty opts) (options Q) = Ok None ->
  pick_fallback h (or_empty opts) (options Q) = Ok fb ->
  query (S d) h q opts =
  Some (if truthy fb then call_fn fb []
        else Throw (VErr EmptyQueryQueueError VUndefined), h).
Proof.
  intros HQ Hr Hd Hf. simpl. rewrite HQ, Hf, Hr, Hd. now destruct (truthy fb).
Qed.

Lemma pick_fallback_none h opts t :
  is_off h (or_empty opts) "fallbackFn" = true ->
  is_off h t "fallbackFn" = true ->
  exists fb, pick_fallback h (or_empty opts) t = Ok fb /\ truthy fb = false.
Proof.
  intros Ho Ht. apply is_off_ok in Ho as (x & Hx & Tx).
  apply is_off_ok in Ht as (y & Hy & Ty).
  exists y. unfold pick_fallback. rewrite Hx. cbn [bind]. now rewrite Tx.
Qed.

(** ** Malformed entries *)

Lemma is_string_false t lit : t <> VStr lit -> is_string t lit = false.
Proof.
  destruct t; simpl; try reflexivity. intros H.
  apply String.eqb_neq. congruence.
Qed.

Lemma settle_malformed h o t bad :
  String.eqb (typeof bad) "object" = false \/
  (exists ty, get_prop h bad "type" = Ok ty /\
     ty <> VStr "Failure" /\ ty <> VStr "Success") ->
  settle h o t bad = Raise (VErr InvalidQueryResultError VUndefined).
Proof.
  intros [H | (ty & Hty & HF & HS)]; unfold settle.
  - now rewrite H.
  - destruct (String.eqb (typeof bad) "object"); [| reflexivity].
    cbn [negb]. rewrite Hty. cbn [bind].
    now rewrite (is_string_false _ _ HF), (is_string_false _ _ HS).
Qed.

(** ** Clearing *)

Lemma clear_one_insert h q Q :
  h !! q = Some Q -> clear_one q h = <[q := set_results Q []]> h.
Proof. intros HQ. unfold clear_one. now rewrite HQ. Qed.

Lemma same_options_clear_one h q : same_options h (clear_one q h).
Proof.
  unfold clear_one. destruct (h !! q) as [Q |] eqn:HQ.
  - now apply same_options_insert.
  - apply same_options_refl.
Qed.

Lemma same_options_clear_all l : forall h, same_options h (clear_all l h).
Proof.
  induction l as [| q l IH]; intros h; [apply same_options_refl |].
  simpl. eapply same_options_trans; [apply same_options_clear_one | apply IH].
Qed.

Lemma clear_one_lookup_ne h q x : x <> q -> clear_one q h !! x = h !! x.
Proof.
  intros Hne. unfold clear_one. destruct (h !! q); [| reflexivity].
  now rewrite lookup_insert_ne.
Qed.

Lemma clear_all_lookup_notin l : forall h x,
  x ∉ l -> clear_all l h !! x = h !! x.
Proof.
  induction l as [| q l IH]; intros h x Hx; [reflexivity |].
  apply not_elem_of_cons in Hx as [Hne Hx]. simpl.
  rewrite IH by exact Hx. now apply clear_one_lookup_ne.
Qed.

Lemma clear_one_emptied h q x Q :
  clear_one q h !! x = Some Q ->
  (x = q \/ exists Q0, h !! x = Some Q0 /\ _results Q0 = []) -> _results Q = [].
Proof.
  unfold clear_one. intros H Hx. destruct (decide (x = q)) as [-> | Hne].
  - destruct (h !! q) as [Q0 |] eqn:HQ.
    + rewrite lookup_insert_eq in H. now injection H as <-.
    + congruence.
  - destruct Hx as [-> | (Q0 & HQ0 & Hr)]; [done |].
    destruct (h !! q); [rewrite lookup_insert_ne in H by done |]; congruence.
Qed.

Lemma clear_all_keeps_empty l : forall h x Q,
  clear_all l h !! x = Some Q ->
  (exists Q0, h !! x = Some Q0 /\ _results Q0 = []) -> _results Q = [].
Proof.
  induction l as [| q l IH]; intros h x Q H (Q0 & HQ0 & Hr).
  - simpl in H. congruence.
  - simpl in H. apply (IH _ _ _ H).
    destruct (clear_one q h !! x) as [Q1 |] eqn:H1.
    + exists Q1. split; [reflexivity |].
      apply (clear_one_emptied h q x Q1 H1). right. now exists Q0.
    + pose proof (same_options_clear_one h q x) as Hs.
      rewrite HQ0, H1 in Hs. discriminate.
Qed.

Lemma clear_all_lookup_in l : forall h x Q,
  x ∈ l -> clear_all l h !! x = Some Q -> _results Q = [].
Proof.
  induction l as [| q l IH]; intros h x Q Hx H; [now apply elem_of_nil in Hx |].
  simpl in H. destruct (decide (x = q)) as [-> | Hne].
  - apply (clear_all_keeps_empty l _ q Q H).
    destruct (clear_one q h !! q) as [Q1 |] eqn:H1.
    + exists Q1. split; [reflexivity |].
      apply (clear_one_emptied h q q Q1 H1). now left.
    + pose proof (same_options_clear_one h q q) as Hs.
      pose proof (same_options_clear_all l (clear_one q h) q) as Hs'.
      rewrite H1 in Hs, Hs'. rewrite H in Hs'. discriminate.
  - apply elem_of_cons in Hx as [-> | Hx]; [done |].
    now apply (IH (clear_one q h) x).
Qed.

Lemma same_options_lookup h h' q Q :
  same_options h h' -> h !! q = Some Q ->
  exists Q', h' !! q = Some Q' /\ options Q' = options Q.
Proof.
  intros Hs HQ. specialize (Hs q). rewrite HQ in Hs.
  destruct (h' !! q) as [Q' |]; [| discriminate].
  exists Q'. split; [reflexivity |]. simpl in Hs. congruence.
Qed.

Lemma parent_chain_same_options h h' l :
  same_options h h' -> parent_chain h l -> parent_chain h' l.
Proof.
  intros Hs. induction 1 as [q Q HQ Hp | q Q B l HQ Hp _ IH].
  - destruct (same_options_lookup h h' q Q Hs HQ) as (Q' & HQ' & Ho).
    apply (chain_root h' q Q' HQ').
    rewrite Ho, <- (is_off_same_options h h'); done.
  - destruct (same_options_lookup h h' q Q Hs HQ) as (Q' & HQ' & Ho).
    apply (chain_step h' q Q' B l HQ'); [| exact IH].
    rewrite Ho, <- (get_prop_same_options h h'); done.
Qed.

Lemma propagate_to_off h opts t :
  is_off h (or_empty opts) "propagateClear" = true ->
  propagate_to h (or_empty opts) t = Ok None.
Proof.
  intros H. apply is_off_ok in H as (x & Hx & Tx).
  unfold propagate_to. rewrite Hx. cbn [bind]. now rewrite Tx.
Qed.

Lemma propagate_to_on h opts t p :
  is_on h (or_empty opts) "propagateClear" = true ->
  get_prop h t "parent" = Ok p ->
  propagate_to h (or_empty opts) t = Ok (if truthy p then Some p else None).
Proof.
  intros H Hp. apply is_on_ok in H as (x & Hx & Tx).
  unfold propagate_to. rewrite Hx. cbn [bind]. now rewrite Tx, Hp.
Qed.

Lemma clearQueue_local d h q Q opts :
  h !! q = Some Q ->
  is_off h (or_empty opts) "propagateClear" = true ->
  clearQueue (S d) h q opts =
  Some (Return (Plain (VQueue q)), <[q := set_results Q []]> h).
Proof.
  intros HQ Hoff. simpl. rewrite HQ, propagate_to_off; [reflexivity |].
  now read_in h.
Qed.

Lemma clearQueue_chain opts l : forall q h d,
  parent_chain h (q :: l) ->
  is_on h (or_empty opts) "propagateClear" = true ->
  clearQueue (length (q :: l) + d) h q opts =
  Some (Return (Plain (VQueue q)), clear_all (q :: l) h).
Proof.
  induction l as [| B l IH]; intros q h d Hc Hon.
  - inversion Hc as [q' Q HQ Hp |]; subst.
    apply is_off_ok in Hp as (p & Hp & Tp).
    simpl. rewrite HQ, (propagate_to_on _ _ _ p).
    + rewrite Tp. now rewrite (clear_one_insert h q Q).
    + now read_in h.
    + now read_in h.
  - inversion Hc as [| q' Q B' l' HQ Hp Hc']; subst.
    change (length (q :: B :: l) + d) with (S (length (B :: l) + d)).
    remember (length (B :: l) + d) as n eqn:Hn.
    cbn [clearQueue]. rewrite HQ.
    rewrite (propagate_to_on _ _ _ (VQueue B)).
    + cbn [truthy]. rewrite clearQueue_or_empty. subst n.
      rewrite (IH B (<[q := set_results Q []]> h) d).
      * cbn [clear_all]. now rewrite (clear_one_insert h q Q).
      * apply (parent_chain_same_options h); auto with store.
      * now read_in h.
    + now read_in h.
    + now read_in h.
Qed.

(** Whatever [$clearQueue] gives, the store it leaves is the one it found
    with the queue, and possibly some more queues, emptied. *)
Lemma clearQueue_effect d : forall h q opts c h',
  clearQueue d h q opts = Some (c, h') ->
  exists l, h' = clear_all (q :: l) h.
Proof.
  induction d as [| d IH]; intros h q opts c h' H; [discriminate |].
  simpl in H. destruct (h !! q) as [Q |] eqn:HQ; [| discriminate].
  rewrite <- (clear_one_insert h q Q HQ) in H.
  destruct (propagate_to _ _ _) as [[p |] | e].
  - destruct p;
      try (destruct (get_prop _ _ "$clearQueue") as [[] |];
           try discriminate; injection H as _ <-; now exists []).
    destruct (clearQueue d _ q0 _) as [[c2 h2] |] eqn:Hrec; [| discriminate].
    apply IH in Hrec as [l ->].
    exists (q0 :: l). destruct c2; now injection H as _ <-.
  - injection H as _ <-. now exists [].
  - injection H as _ <-. now exists [].
Qed.

Lemma clear_all_lookup l h x Q :
  x ∈ l -> h !! x = Some Q -> clear_all l h !! x = Some (set_results Q []).
Proof.
  intros Hx HQ.
  destruct (same_options_lookup h (clear_all l h) x Q (same_options_clear_all l h) HQ)
    as (Q' & HQ' & Ho).
  pose proof (clear_all_lookup_in l h x Q' Hx HQ') as Hr.
  rewrite HQ'. destruct Q' as [o rs]. simpl in *. now subst.
Qed.

(** * The claims *)

(** C1 (FIFO law).  On a queue with nothing pending, any sequence of
    [$queueResult] / [$queueFailure] calls followed by as many [$query()]
    calls gives, call by call and in the order of the enqueue calls, a
    promise resolved with the content of a queued result and a promise
    rejected with the stored content of a queued failure (the content
    passed when that is an [Error], and otherwise that content or its
    [BaseError] wrapper, as decided when it was queued); the store is then
    back to what it was, with nothing pending on the queue. *)
Theorem fifo_law h q Q calls d :
  h !! q = Some Q -> _results Q = [] -> truthy (options Q) = true ->
  exists h1,
    enqueue_all h q calls = Some h1 /\
    query_all (S d) (length calls) h1 q = Some (map (scripted h) calls, h) /\
    (forall c meta, scripted h (QueueResult c meta) = Return (Resolved c)) /\
    (forall c meta, exists c',
       failure_content h c meta = Ok c' /\
       scripted h (QueueFailure c meta) = Return (Rejected c') /\
       (c' = c \/ c' = VErr BaseError c) /\
       (instanceof_Error c = true -> c' = c)).
Proof.
  intros HQ Hr Ht.
  destruct (enqueue_all_spec h q calls h Q (same_options_refl h) HQ)
    as (es & Hes & Hall).
  eexists. split; [exact Hall |]. split; [| split].
  - rewrite (query_all_spec h q d calls es Hes _ (set_results Q (_results Q ++ es))).
    + rewrite insert_insert_eq.
      replace (set_results (set_results Q (_results Q ++ es)) []) with Q
        by (destruct Q; simpl in *; now subst).
      now rewrite insert_id.
    + now apply same_options_insert.
    + apply lookup_insert_eq.
    + simpl. now rewrite Hr.
    + exact Ht.
  - reflexivity.
  - intros c meta.
    destruct (failure_content_spec h c meta) as (c' & Hc' & Hiff & Hel).
    exists c'. split; [exact Hc' |].
    split; [unfold scripted; simpl; now rewrite Hc' |]. split.
    + exact (failure_content_cases h c meta c' Hc').
    + intros He. apply Hel. intros Hw. apply Hiff in Hw as [_ Hw]. congruence.
Qed.

Lemma fifo_law_witness :
  exists h1,
    enqueue_all store_alone 0
      [QueueResult (VNum 1) VUndefined; QueueFailure (VStr "boom") VUndefined;
       QueueResult (VNum 2) VUndefined] = Some h1 /\
    query_all 1 3 h1 0 =
    Some ([Return (Resolved (VNum 1));
           Return (Rejected (VErr BaseError (VStr "boom")));
           Return (Resolved (VNum 2))], store_alone).
Proof.
  destruct (fifo_law store_alone 0 (mkQueryInterface (VObj []) [])
              [QueueResult (VNum 1) VUndefined;
               QueueFailure (VStr "boom") VUndefined;
               QueueResult (VNum 2) VUndefined] 0
              eq_refl eq_refl eq_refl) as (h1 & H1 & H2 & _).
  exists h1. split; [exact H1 | exact H2].
Defined.

(** C2 (failure normalisation).  [$queueFailure(e, o)] appends a [Failure]
    entry whose content is the [BaseError] wrapper around [e] exactly when
    ([o] is absent or [o.convertNonErrors] is not [false]) and [e] is not an
    [Error]; otherwise the content is [e] itself.  [$queueError] is the same
    function, and the stored content is what a later [$query] rejects
    with. *)
Theorem queueFailure_normalization h this Q e o :
  h !! this = Some Q ->
  exists stored,
    queueFailure h this e o =
    Some (Return (Plain (VQueue this)),
          <[this := push Q (entry "Failure" stored o)]> h) /\
    queueError h this e o = queueFailure h this e o /\
    (stored = VErr BaseError e <->
     (o = VUndefined \/ get_prop h o "convertNonErrors" <> Ok (VBool false)) /\
     instanceof_Error e = false) /\
    (stored <> VErr BaseError e -> stored = e) /\
    (_results Q = [] -> truthy (options Q) = true -> forall d opts,
     query (S d) (<[this := push Q (entry "Failure" stored o)]> h) this opts =
     Some (Return (Rejected stored), h)).
Proof.
  intros HQ. destruct (failure_content_spec h e o) as (stored & Hst & Hiff & Hel).
  exists stored. unfold queueFailure at 1. rewrite HQ, Hst.
  split; [reflexivity |]. split; [reflexivity |].
  split; [exact Hiff |]. split; [exact Hel |].
  intros Hr Ht d opts.
  rewrite (query_head_failure _ this (push Q (entry "Failure" stored o))
             (entry "Failure" stored o) stored [] opts d).
  - rewrite insert_insert_eq.
    replace (set_results (push Q (entry "Failure" stored o)) []) with Q
      by (destruct Q; simpl in *; now subst).
    now rewrite insert_id.
  - apply lookup_insert_eq.
  - simpl. now rewrite Hr.
  - exact Ht.
  - reflexivity.
  - reflexivity.
Qed.

Lemma queueFailure_normalization_witness :
  queueFailure store_alone 0 (VStr "boom") VUndefined =
  Some (Return (Plain (VQueue 0)),
        <[0 := mkQueryInterface (VObj [])
                 [entry "Failure" (VErr BaseError (VStr "boom")) VUndefined]]>
          store_alone).
Proof.
  destruct (queueFailure_normalization store_alone 0
              (mkQueryInterface (VObj []) []) (VStr "boom") VUndefined eq_refl)
    as (stored & Hq & _ & Hiff & _).
  assert (stored = VErr BaseError (VStr "boom")) as ->.
  { apply Hiff. split; [now left | reflexivity]. }
  exact Hq.
Defined.

(** C3, as stated, fails: with [{convertNonErrors: false}] a payload that is
    not an [Error] is stored as it is, not wrapped. *)
Lemma convertNonErrors_false_not_wrapped :
  instanceof_Error (VStr "boom") = false /\
  failure_content ∅ (VStr "boom") (VObj [("convertNonErrors", VBool false)])
  <> Ok (VErr BaseError (VStr "boom")).
Proof. split; [reflexivity | discriminate]. Qed.

(** C3, amended.  [$queueFailure(e, o)] with [o.convertNonErrors] equal to
    [false] stores [e] unchanged, whether [e] is an [Error] or not; and an
    [Error] is stored unchanged whatever the options. *)
Theorem convertNonErrors_false_keeps_payload h this Q e o :
  h !! this = Some Q ->
  (get_prop h o "convertNonErrors" = Ok (VBool false) ->
   queueFailure h this e o =
   Some (Return (Plain (VQueue this)), <[this := push Q (entry "Failure" e o)]> h)) /\
  (instanceof_Error e = true ->
   queueFailure h this e o =
   Some (Return (Plain (VQueue this)), <[this := push Q (entry "Failure" e o)]> h)).
Proof.
  intros HQ.
  destruct (failure_content_spec h e o) as (stored & Hst & Hiff & Hel).
  unfold queueFailure. rewrite HQ, Hst. split; intros H.
  - rewrite Hel; [reflexivity |]. intros Hw. apply Hiff in Hw as [[-> | Hne] _].
    + discriminate.
    + now apply Hne.
  - rewrite Hel; [reflexivity |]. intros Hw. apply Hiff in Hw as [_ He]. congruence.
Qed.

Lemma convertNonErrors_false_keeps_payload_witness :
  queueFailure store_alone 0 (VStr "boom") (VObj [("convertNonErrors", VBool false)]) =
  Some (Return (Plain (VQueue 0)),
        <[0 := mkQueryInterface (VObj [])
                 [entry "Failure" (VStr "boom")
                    (VObj [("convertNonErrors", VBool false)])]]> store_alone).
Proof.
  exact (proj1 (convertNonErrors_false_keeps_payload store_alone 0
                  (mkQueryInterface (VObj []) []) (VStr "boom")
                  (VObj [("convertNonErrors", VBool false)]) eq_refl) eq_refl).
Defined.

(** C4 (precedence of the created flag).  When [$query] is called with
    [includeCreated] and consumes the [Success] entry queued as
    [$queueResult(c, meta)], it resolves with the pair [[c, flag]]: [flag] is
    [meta.wasCreated] if that was set, otherwise the queue's [createdDefault]
    if that was set, otherwise [true] (a value that is not a boolean counts
    by its truthiness). *)
Theorem created_flag_precedence h q Q c meta rest opts d w cd :
  h !! q = Some Q -> _results Q = entry "Success" c meta :: rest ->
  truthy (options Q) = true ->
  is_on h (or_empty opts) "includeCreated" = true ->
  get_prop h (or_empty meta) "wasCreated" = Ok w ->
  get_prop h (options Q) "createdDefault" = Ok cd ->
  exists flag,
    query (S d) h q opts =
    Some (Return (Resolved (VArr [c; VBool flag])), <[q := set_results Q rest]> h) /\
    flag = match w, cd with
           | VUndefined, VUndefined => true
           | VUndefined, _ => truthy cd
           | _, _ => truthy w
           end /\
    (forall b, w = VBool b -> flag = b) /\
    (forall b, w = VUndefined -> cd = VBool b -> flag = b) /\
    (w = VUndefined -> cd = VUndefined -> flag = true).
Proof.
  intros HQ Hr Ht Hic Hw Hcd. exists (created_flag cd w). split.
  - rewrite (query_shift d h q Q _ rest opts HQ Hr Ht).
    rewrite (settle_created _ _ _ c meta w cd); [reflexivity | | |].
    + now read_in h.
    + now read_in h.
    + now read_in h.
  - split; [now destruct w, cd |].
    split; [now intros b -> |].
    split; [now intros b -> -> | now intros -> ->].
Qed.

Lemma created_flag_precedence_witness :
  query 1 store_created 0 (VObj [("includeCreated", VBool true)]) =
  Some (Return (Resolved (VArr [VStr "v"; VBool false])),
        <[0 := mkQueryInterface (VObj [("createdDefault", VBool true)]) []]>
          store_created).
Proof.
  destruct (created_flag_precedence store_created 0
              (mkQueryInterface (VObj [("createdDefault", VBool true)])
                 [entry "Success" (VStr "v") (VObj [("wasCreated", VBool false)])])
              (VStr "v") (VObj [("wasCreated", VBool false)]) []
              (VObj [("includeCreated", VBool true)]) 0 (VBool false) (VBool true)
              eq_refl eq_refl eq_refl eq_refl eq_refl eq_refl)
    as (flag & Hq & _ & Hw & _).
  rewrite (Hw false eq_refl) in Hq. exact Hq.
Defined.

(** C5 (delegation).  A queue [A] with nothing pending, a parent [B], and
    [stopPropagation] neither in the call's options nor in its own
    configuration, answers [A.$query(options)] with what [B.$query(options)]
    gives, and so on up the chain of parents; when a queue [C] up the chain
    has entries pending, the call shifts the oldest one off [C] and changes
    nothing else; [A] is left as it was whatever the call gives. *)
Theorem query_delegation h opts A B :
  delegating h opts A B ->
  (forall d, query (S d) h A opts = query d h B opts) /\
  (forall k C d, delegation_path h opts k B C ->
     query (S k + d) h A opts = query d h C opts) /\
  (forall k C QC r rest d, delegation_path h opts k B C ->
     h !! C = Some QC -> _results QC = r :: rest -> truthy (options QC) = true ->
     query (S k + S d) h A opts = query (S d) h C opts /\
     exists c, query (S k + S d) h A opts = Some (c, <[C := set_results QC rest]> h)) /\
  (forall d c h', query d h A opts = Some (c, h') -> h' !! A = h !! A).
Proof.
  intros HAB. split; [| split; [| split]].
  - intros d. now apply delegating_step.
  - intros k C d Hp.
    exact (delegation_path_query h opts (S k) A C (path_up h opts k A B C HAB Hp) d).
  - intros k C QC r rest d Hp HC Hr Ht.
    pose proof (delegation_path_query h opts (S k) A C
                  (path_up h opts k A B C HAB Hp) (S d)) as Heq.
    split; [exact Heq |]. rewrite Heq.
    rewrite (query_shift d h C QC r rest opts HC Hr Ht). eauto.
  - intros d c h' Hq. destruct HAB as (Q & HQ & Hr & _).
    rewrite HQ. exact (query_keeps_empty d h A Q opts c h' HQ Hr Hq).
Qed.

Lemma query_delegation_witness :
  query 2 store_family 1 VUndefined =
  Some (Return (Resolved (VStr "v")),
        <[0 := mkQueryInterface (VObj []) []]> store_family).
Proof.
  assert (delegating store_family VUndefined 1 0) as HAB.
  { exists (mkQueryInterface
              (VObj [("parent", VQueue 0); ("fallbackFn", VFun "fb")]) []).
    repeat split. }
  rewrite (proj1 (query_delegation store_family VUndefined 1 0 HAB) 1).
  reflexivity.
Defined.

(** C6 (exhaustion).  On a queue with nothing pending, when the call is not
    delegated (the call's [stopPropagation] is set, or the queue's own is,
    or the queue has no parent) and neither the call nor the queue has a
    fallback, [$query] throws [EmptyQueryQueueError]: a synchronous throw,
    not a rejected promise, and the store is left as it was. *)
Theorem query_exhaustion h q Q opts d :
  h !! q = Some Q -> _results Q = [] ->
  is_on h (or_empty opts) "stopPropagation" = true \/
  is_on h (options Q) "stopPropagation" = true \/
  is_off h (options Q) "parent" = true ->
  is_off h (or_empty opts) "fallbackFn" = true ->
  is_off h (options Q) "fallbackFn" = true ->
  query (S d) h q opts = Some (Throw (VErr EmptyQueryQueueError VUndefined), h).
Proof.
  intros HQ Hr Hstop Hfo Hft.
  destruct (pick_fallback_none h opts (options Q) Hfo Hft) as (fb & Hfb & Tfb).
  rewrite (query_exhausted h q Q opts fb d HQ Hr (delegate_to_none h opts _ Hstop) Hfb).
  now rewrite Tfb.
Qed.

Lemma query_exhaustion_witness :
  query 1 store_busy_parent 1 (VObj [("stopPropagation", VBool true)]) =
  Some (Throw (VErr EmptyQueryQueueError VUndefined), store_busy_parent).
Proof.
  apply (query_exhaustion store_busy_parent 1
           (mkQueryInterface (VObj [("parent", VQueue 0)]) [])
           (VObj [("stopPropagation", VBool true)]) 0);
    [reflexivity | reflexivity | left; reflexivity | reflexivity | reflexivity].
Defined.

(** C7 (scripted failures).  When the entry [$query] consumes is tagged
    [Failure], the call returns a promise rejected with the entry's content
    as it was stored, whatever the options of the call: [includeCreated] and
    [includeAffectedRows] play no part. *)
Theorem query_failure_rejects h q Q r c rest opts d :
  h !! q = Some Q -> _results Q = r :: rest -> truthy (options Q) = true ->
  get_prop h r "type" = Ok (VStr "Failure") ->
  get_prop h r "content" = Ok c ->
  query (S d) h q opts = Some (Return (Rejected c), <[q := set_results Q rest]> h).
Proof. apply query_head_failure. Qed.

Lemma query_failure_rejects_witness :
  query 1 (<[0 := mkQueryInterface (VObj []) [entry "Failure" (VStr "boom") VUndefined]]> ∅)
    0 (VObj [("includeCreated", VBool true); ("includeAffectedRows", VBool true)]) =
  Some (Return (Rejected (VStr "boom")),
        <[0 := mkQueryInterface (VObj []) []]>
          (<[0 := mkQueryInterface (VObj []) [entry "Failure" (VStr "boom") VUndefined]]> ∅)).
Proof.
  apply (query_failure_rejects _ 0
           (mkQueryInterface (VObj []) [entry "Failure" (VStr "boom") VUndefined])
           (entry "Failure" (VStr "boom") VUndefined));
    reflexivity.
Defined.

(** C8 (clear and cascading clear).  [$clearQueue(options)] without
    [propagateClear] empties the queue, touches no other queue and returns
    the queue; with [propagateClear] it does the same on every queue of the
    chain of parents, up to the one that has no parent; and whatever the
    call gives, the queue itself is left with nothing pending. *)
Theorem clearQueue_cascade h q Q opts :
  h !! q = Some Q ->
  (is_off h (or_empty opts) "propagateClear" = true -> forall d,
     clearQueue (S d) h q opts =
     Some (Return (Plain (VQueue q)), <[q := set_results Q []]> h) /\
     forall x, x <> q -> <[q := set_results Q []]> h !! x = h !! x) /\
  (is_on h (or_empty opts) "propagateClear" = true -> forall l d,
     parent_chain h (q :: l) ->
     clearQueue (length (q :: l) + d) h q opts =
     Some (Return (Plain (VQueue q)), clear_all (q :: l) h) /\
     (forall x Qx, x ∈ q :: l -> h !! x = Some Qx ->
        clear_all (q :: l) h !! x = Some (set_results Qx [])) /\
     (forall x, x ∉ q :: l -> clear_all (q :: l) h !! x = h !! x)) /\
  (forall d c h', clearQueue d h q opts = Some (c, h') ->
     h' !! q = Some (set_results Q [])).
Proof.
  intros HQ. split; [| split].
  - intros Hoff d. split; [now apply clearQueue_local |].
    intros x Hne. now rewrite lookup_insert_ne.
  - intros Hon l d Hc. split; [now apply clearQueue_chain |]. split.
    + intros x Qx. apply clear_all_lookup.
    + intros x. apply clear_all_lookup_notin.
  - intros d c h' H. apply clearQueue_effect in H as [l ->].
    apply clear_all_lookup; [apply elem_of_cons; now left | exact HQ].
Qed.

Lemma clearQueue_cascade_witness :
  clearQueue 2 store_busy 1 (VObj [("propagateClear", VBool true)]) =
  Some (Return (Plain (VQueue 1)), clear_all [1; 0] store_busy) /\
  clearQueue 1 store_busy 1 VUndefined =
  Some (Return (Plain (VQueue 1)),
        <[1 := mkQueryInterface (VObj [("parent", VQueue 0)]) []]> store_busy).
Proof.
  pose proof (clearQueue_cascade store_busy 1
                (mkQueryInterface (VObj [("parent", VQueue 0)])
                   [entry "Success" (VStr "a") VUndefined])) as H.
  split.
  - refine (proj1 (proj1 (proj2 (H (VObj [("propagateClear", VBool true)]) eq_refl))
                     eq_refl [0] 0 _)).
    eapply chain_step; [reflexivity | reflexivity |].
    eapply chain_root; reflexivity.
  - exact (proj1 (proj1 (H VUndefined eq_refl) eq_refl 0)).
Defined.

(** C9 (the corrupt entry is consumed).  [$query] shifts the oldest pending
    entry off the queue before it looks at it: whatever the call gives, the
    entry is gone.  When that entry is malformed (its [typeof] is not
    [object], or its [type] is neither ['Failure'] nor ['Success']), the call
    throws [InvalidQueryResultError] and leaves the queue without the entry;
    the next [$query] goes on with the entry that followed. *)
Theorem query_consumes_malformed h q Q bad rest opts d :
  h !! q = Some Q -> _results Q = bad :: rest -> truthy (options Q) = true ->
  (exists c, query (S d) h q opts = Some (c, <[q := set_results Q rest]> h)) /\
  (String.eqb (typeof bad) "object" = false \/
   (exists ty, get_prop h bad "type" = Ok ty /\
      ty <> VStr "Failure" /\ ty <> VStr "Success") ->
   query (S d) h q opts =
   Some (Throw (VErr InvalidQueryResultError VUndefined),
         <[q := set_results Q rest]> h)) /\
  (forall c meta rest' d', rest = entry "Success" c meta :: rest' ->
     query (S d') (<[q := set_results Q rest]> h) q VUndefined =
     Some (Return (Resolved c), <[q := set_results Q rest']> h)) /\
  (forall c meta rest' d' opts', rest = entry "Failure" c meta :: rest' ->
     query (S d') (<[q := set_results Q rest]> h) q opts' =
     Some (Return (Rejected c), <[q := set_results Q rest']> h)).
Proof.
  intros HQ Hr Ht. split; [| split; [| split]].
  - rewrite (query_shift d h q Q bad rest opts HQ Hr Ht). eauto.
  - intros Hbad. rewrite (query_shift d h q Q bad rest opts HQ Hr Ht).
    rewrite settle_malformed; [reflexivity |].
    destruct Hbad as [H | (ty & Hty & HF & HS)]; [now left | right].
    exists ty. now rewrite get_prop_shift.
  - intros c meta rest' d' ->.
    rewrite (query_head_plain _ q (set_results Q (entry "Success" c meta :: rest'))
               (entry "Success" c meta) c rest' VUndefined d');
      try reflexivity; try exact Ht.
    + now rewrite insert_insert_eq.
    + apply lookup_insert_eq.
  - intros c meta rest' d' opts' ->.
    rewrite (query_head_failure _ q (set_results Q (entry "Failure" c meta :: rest'))
               (entry "Failure" c meta) c rest' opts' d');
      try reflexivity; try exact Ht.
    + now rewrite insert_insert_eq.
    + apply lookup_insert_eq.
Qed.

Lemma query_consumes_malformed_witness :
  query 1 store_corrupt 0 VUndefined =
  Some (Throw (VErr InvalidQueryResultError VUndefined),
        <[0 := mkQueryInterface (VObj []) [entry "Success" (VStr "next") VUndefined]]>
          store_corrupt).
Proof.
  refine (proj1 (proj2 (query_consumes_malformed store_corrupt 0
                   (mkQueryInterface (VObj [])
                      [VNum 7; entry "Success" (VStr "next") VUndefined])
                   (VNum 7) [entry "Success" (VStr "next") VUndefined]
                   VUndefined 0 eq_refl eq_refl eq_refl)) _).
  left. reflexivity.
Defined.

(** C10 (a configured fallback does not travel with a delegated call).  A
    queue [A] with a fallback configured and nothing pending, whose call is
    delegated to a parent [B] that has nothing pending, no parent and no
    fallback, throws [EmptyQueryQueueError] when the call carries no
    fallback of its own: the fallback of [A] is not called.  In general,
    where a delegated call stops on an empty queue [C], what is called is
    chosen from the call's [options.fallbackFn] and the configuration of
    [C] alone. *)
Theorem configured_fallback_not_forwarded h opts A B QA QB f d :
  h !! A = Some QA ->
  get_prop h (options QA) "fallbackFn" = Ok (VFun f) ->
  delegating h opts A B ->
  h !! B = Some QB -> _results QB = [] ->
  is_off h (options QB) "parent" = true ->
  is_off h (options QB) "fallbackFn" = true ->
  is_off h (or_empty opts) "fallbackFn" = true ->
  query (S (S d)) h A opts =
  Some (Throw (VErr EmptyQueryQueueError VUndefined), h) /\
  (forall k C QC fb d', delegation_path h opts k A C ->
     h !! C = Some QC -> _results QC = [] ->
     delegate_to h (or_empty opts) (options QC) = Ok None ->
     pick_fallback h (or_empty opts) (options QC) = Ok fb ->
     query (k + S d') h A opts =
     Some (if truthy fb then call_fn fb []
           else Throw (VErr EmptyQueryQueueError VUndefined), h)).
Proof.
  intros HA Hf HAB HB Hr Hp Hfb Hfo. split.
  - rewrite (delegating_step h opts A B (S d) HAB).
    destruct (pick_fallback_none h opts (options QB) Hfo Hfb) as (fb & Hpick & Tfb).
    rewrite (query_exhausted h B QB opts fb d HB Hr); [now rewrite Tfb | | exact Hpick].
    apply delegate_to_none. now right; right.
  - intros k C QC fb d' Hpath HC HrC Hstop Hpick.
    rewrite (delegation_path_query h opts k A C Hpath (S d')).
    now apply (query_exhausted h C QC).
Qed.

Lemma configured_fallback_not_forwarded_witness :
  query 2 store_exhausted 1 (VObj []) =
  Some (Throw (VErr EmptyQueryQueueError VUndefined), store_exhausted).
Proof.
  refine (proj1 (configured_fallback_not_forwarded store_exhausted (VObj []) 1 0
                   (mkQueryInterface
                      (VObj [("parent", VQueue 0); ("fallbackFn", VFun "fb")]) [])
                   (mkQueryInterface (VObj []) []) "fb" 0
                   eq_refl eq_refl _ eq_refl eq_refl eq_refl eq_refl eq_refl)).
  exists (mkQueryInterface
            (VObj [("parent", VQueue 0); ("fallbackFn", VFun "fb")]) []).
  repeat split.
Defined.

(** * Further properties of the methods *)

(** ** Shapes of a resolved result *)

Lemma settle_affected h opts thisopts c meta ar :
  is_off h opts "includeCreated" = true ->
  is_on h opts "includeAffectedRows" = true ->
  get_prop h (or_empty meta) "affectedRows" = Ok ar ->
  settle h opts thisopts (entry "Success" c meta) =
  Ok (Resolved (VArr [c; if instanceof_Array ar then ar else VArr []])).
Proof.
  intros Hic Hia Har.
  apply is_off_ok in Hic as (ic & Hic & Tic).
  apply is_on_ok in Hia as (ia & Hia & Tia).
  unfold settle, entry. simpl typeof. simpl negb. cbv iota.
  change (get_prop h (VObj ?fs) "type") with (@Ok value (VStr "Success")).
  cbn [bind is_string String.eqb Ascii.eqb Bool.eqb orb negb].
  rewrite Hic. cbn [bind]. rewrite Tic, Hia. cbn [bind]. rewrite Tia.
  change (get_prop h (VObj _) "options") with (@Ok value (or_empty meta)).
  cbn [bind]. rewrite Har. reflexivity.
Qed.

(** X1 (affected rows).  When [$query] is called with [includeAffectedRows]
    and without [includeCreated] and consumes the entry queued as
    [$queueResult(c, meta)], it resolves with the pair [[c, rows]]: [rows] is
    [meta.affectedRows] when that is an array, and the empty array when it
    is anything else or was not given. *)
Theorem query_affected_rows h q Q c meta rest opts d ar :
  h !! q = Some Q -> _results Q = entry "Success" c meta :: rest ->
  truthy (options Q) = true ->
  is_off h (or_empty opts) "includeCreated" = true ->
  is_on h (or_empty opts) "includeAffectedRows" = true ->
  get_prop h (or_empty meta) "affectedRows" = Ok ar ->
  exists rows,
    query (S d) h q opts =
    Some (Return (Resolved (VArr [c; rows])), <[q := set_results Q rest]> h) /\
    (forall items, ar = VArr items -> rows = VArr items) /\
    (instanceof_Array ar = false -> rows = VArr []).
Proof.
  intros HQ Hr Ht Hic Hia Har.
  exists (if instanceof_Array ar then ar else VArr []). split.
  - rewrite (query_shift d h q Q _ rest opts HQ Hr Ht).
    rewrite (settle_affected _ _ _ c meta ar); [reflexivity | | |]; now read_in h.
  - split; [now intros items -> | now intros ->].
Qed.

Lemma query_affected_rows_witness :
  query 1 store_rows 0 (VObj [("includeAffectedRows", VBool true)]) =
  Some (Return (Resolved (VArr [VStr "v"; VArr [VNum 1; VNum 2]])),
        <[0 := mkQueryInterface (VObj []) []]> store_rows).
Proof.
  destruct (query_affected_rows store_rows 0
              (mkQueryInterface (VObj [])
                 [entry "Success" (VStr "v")
                    (VObj [("affectedRows", VArr [VNum 1; VNum 2])])])
              (VStr "v") (VObj [("affectedRows", VArr [VNum 1; VNum 2])]) []
              (VObj [("includeAffectedRows", VBool true)]) 0
              (VArr [VNum 1; VNum 2])
              eq_refl eq_refl eq_refl eq_refl eq_refl eq_refl)
    as (rows & Hq & Harr & _).
  rewrite (Harr _ eq_refl) in Hq. exact Hq.
Defined.

(** X2 (bare result).  When neither [includeCreated] nor
    [includeAffectedRows] is requested, consuming the entry queued as
    [$queueResult(c, meta)] resolves with [c] alone, whatever [meta] holds. *)
Theorem query_bare_result h q Q c meta rest opts d :
  h !! q = Some Q -> _results Q = entry "Success" c meta :: rest ->
  truthy (options Q) = true ->
  is_off h (or_empty opts) "includeCreated" = true ->
  is_off h (or_empty opts) "includeAffectedRows" = true ->
  query (S d) h q opts =
  Some (Return (Resolved c), <[q := set_results Q rest]> h).
Proof.
  intros HQ Hr Ht Hic Hia.
  now apply (query_head_plain h q Q (entry "Success" c meta) c rest).
Qed.

Lemma query_bare_result_witness :
  query 1 store_rows 0 (VObj [("stopPropagation", VBool true)]) =
  Some (Return (Resolved (VStr "v")),
        <[0 := mkQueryInterface (VObj []) []]> store_rows).
Proof.
  apply (query_bare_result store_rows 0
           (mkQueryInterface (VObj [])
              [entry "Success" (VStr "v")
                 (VObj [("affectedRows", VArr [VNum 1; VNum 2])])])
           (VStr "v") (VObj [("affectedRows", VArr [VNum 1; VNum 2])]) []);
    reflexivity.
Defined.

(** ** The fallback *)

(** X3 (which fallback is called).  On a queue with nothing pending whose
    call is not delegated, a function given as [options.fallbackFn] is
    called, whatever the queue has configured; without one, the function
    configured as the queue's [fallbackFn] is called.  The store is left as
    it was. *)
Theorem query_fallback_choice h q Q opts d :
  h !! q = Some Q -> _results Q = [] ->
  is_on h (or_empty opts) "stopPropagation" = true \/
  is_on h (options Q) "stopPropagation" = true \/
  is_off h (options Q) "parent" = true ->
  (forall f, get_prop h (or_empty opts) "fallbackFn" = Ok (VFun f) ->
     query (S d) h q opts = Some (Return (Called f []), h)) /\
  (forall g, is_off h (or_empty opts) "fallbackFn" = true ->
     get_prop h (options Q) "fallbackFn" = Ok (VFun g) ->
     query (S d) h q opts = Some (Return (Called g []), h)).
Proof.
  intros HQ Hr Hstop. pose proof (delegate_to_none h opts _ Hstop) as Hd. split.
  - intros f Hf.
    rewrite (query_exhausted h q Q opts (VFun f) d HQ Hr Hd); [reflexivity |].
    unfold pick_fallback. now rewrite Hf.
  - intros g Ho Hg. apply is_off_ok in Ho as (x & Hx & Tx).
    rewrite (query_exhausted h q Q opts (VFun g) d HQ Hr Hd); [reflexivity |].
    unfold pick_fallback. rewrite Hx. cbn [bind]. now rewrite Tx.
Qed.

Lemma query_fallback_choice_witness :
  query 1 store_fallback 0 (VObj [("fallbackFn", VFun "local")]) =
  Some (Return (Called "local" []), store_fallback) /\
  query 1 store_fallback 0 VUndefined =
  Some (Return (Called "configured" []), store_fallback).
Proof.
  split.
  - refine (proj1 (query_fallback_choice store_fallback 0
                     (mkQueryInterface (VObj [("fallbackFn", VFun "configured")]) [])
                     (VObj [("fallbackFn", VFun "local")]) 0 eq_refl eq_refl _)
                  "local" eq_refl).
    right; right; reflexivity.
  - refine (proj2 (query_fallback_choice store_fallback 0
                     (mkQueryInterface (VObj [("fallbackFn", VFun "configured")]) [])
                     VUndefined 0 eq_refl eq_refl _)
                  "configured" eq_refl eq_refl).
    right; right; reflexivity.
Defined.

(** X4 (a fallback that is not a function).  On a queue with nothing
    pending whose call is not delegated, a configured [fallbackFn] that is
    truthy but not a function makes [$query] throw a [TypeError], not
    [EmptyQueryQueueError]; the store is left as it was. *)
Theorem query_fallback_not_callable h q Q opts d fb :
  h !! q = Some Q -> _results Q = [] ->
  is_on h (or_empty opts) "stopPropagation" = true \/
  is_on h (options Q) "stopPropagation" = true \/
  is_off h (options Q) "parent" = true ->
  is_off h (or_empty opts) "fallbackFn" = true ->
  get_prop h (options Q) "fallbackFn" = Ok fb ->
  truthy fb = true -> (forall f, fb <> VFun f) ->
  query (S d) h q opts = Some (Throw (VErr TypeError VUndefined), h).
Proof.
  intros HQ Hr Hstop Ho Hfb Tfb Hnf. apply is_off_ok in Ho as (x & Hx & Tx).
  rewrite (query_exhausted h q Q opts fb d HQ Hr (delegate_to_none h opts _ Hstop)).
  - rewrite Tfb. destruct fb; try reflexivity. now destruct (Hnf f).
  - unfold pick_fallback. rewrite Hx. cbn [bind]. now rewrite Tx.
Qed.

Lemma query_fallback_not_callable_witness :
  query 1 store_fallback_string 0 VUndefined =
  Some (Throw (VErr TypeError VUndefined), store_fallback_string).
Proof.
  refine (query_fallback_not_callable store_fallback_string 0
            (mkQueryInterface (VObj [("fallbackFn", VStr "nope")]) [])
            VUndefined 0 (VStr "nope") eq_refl eq_refl _ eq_refl eq_refl eq_refl _).
  - right; right; reflexivity.
  - discriminate.
Defined.

(** X5 (the call's own fallback travels with the call).  When a call is
    delegated up a chain of queues and stops on a queue [C] with nothing
    pending, a function given as [options.fallbackFn] is called there,
    however far up [C] is; the store is left as it was. *)
Theorem local_fallback_forwarded h opts k A C QC f d :
  delegation_path h opts k A C ->
  h !! C = Some QC -> _results QC = [] ->
  is_on h (options QC) "stopPropagation" = true \/
  is_off h (options QC) "parent" = true ->
  get_prop h (or_empty opts) "fallbackFn" = Ok (VFun f) ->
  query (k + S d) h A opts = Some (Return (Called f []), h).
Proof.
  intros Hpath HC Hr Hstop Hf.
  rewrite (delegation_path_query h opts k A C Hpath (S d)).
  rewrite (query_exhausted h C QC opts (VFun f) d HC Hr); [reflexivity | |].
  - apply delegate_to_none. now right.
  - unfold pick_fallback. now rewrite Hf.
Qed.

Lemma local_fallback_forwarded_witness :
  query 2 store_exhausted 1 (VObj [("fallbackFn", VFun "local")]) =
  Some (Return (Called "local" []), store_exhausted).
Proof.
  refine (local_fallback_forwarded store_exhausted
            (VObj [("fallbackFn", VFun "local")]) 1 1 0
            (mkQueryInterface (VObj []) []) "local" 0 _ eq_refl eq_refl _ eq_refl).
  - eapply path_up; [| apply path_here].
    exists (mkQueryInterface
              (VObj [("parent", VQueue 0); ("fallbackFn", VFun "fb")]) []).
    repeat split.
  - right. reflexivity.
Defined.

(** ** Entries and parents of the wrong kind *)

(** X6 ([null] at the head).  A [null] entry passes the [typeof] test of
    the guard, so reading its [type] throws: [$query] fails with a
    [TypeError], not with [InvalidQueryResultError], and the entry is off
    the queue. *)
Theorem query_null_head h q Q rest opts d :
  h !! q = Some Q -> _results Q = VNull :: rest -> truthy (options Q) = true ->
  query (S d) h q opts =
  Some (Throw (VErr TypeError VUndefined), <[q := set_results Q rest]> h).
Proof.
  intros HQ Hr Ht. now rewrite (query_shift d h q Q VNull rest opts HQ Hr Ht).
Qed.

Lemma query_null_head_witness :
  query 1 store_null 0 VUndefined =
  Some (Throw (VErr TypeError VUndefined),
        <[0 := mkQueryInterface (VObj []) [entry "Success" (VStr "next") VUndefined]]>
          store_null).
Proof.
  exact (query_null_head store_null 0
           (mkQueryInterface (VObj [])
              [VNull; entry "Success" (VStr "next") VUndefined])
           [entry "Success" (VStr "next") VUndefined] VUndefined 0
           eq_refl eq_refl eq_refl).
Defined.

(** What is made of an entry does not depend on what is pending. *)
Lemma settle_same_options h h' o t r :
  same_options h h' -> settle h o t r = settle h' o t r.
Proof.
  intros Hs. unfold settle.
  repeat first
    [ reflexivity
    | match goal with
      | |- context [get_prop h ?v ?p] =>
          rewrite (get_prop_same_options h h' v p Hs) by done;
          destruct (get_prop h' v p); cbn [bind]
      | |- context [if ?b then _ else _] => destruct b
      end ].
Qed.

(** X7 (an entry with a tag but no options).  An entry tagged ['Success']
    whose [options] is [undefined] or [null] passes the guard; a call that
    asks for [includeCreated] or [includeAffectedRows] then throws a
    [TypeError] when it reads the entry's options, and the entry is off the
    queue. *)
Theorem query_entry_without_options h q Q r ro rest opts d :
  h !! q = Some Q -> _results Q = r :: rest -> truthy (options Q) = true ->
  get_prop h r "type" = Ok (VStr "Success") ->
  get_prop h r "options" = Ok ro -> ro = VUndefined \/ ro = VNull ->
  is_on h (or_empty opts) "includeCreated" = true \/
  is_on h (or_empty opts) "includeAffectedRows" = true ->
  query (S d) h q opts =
  Some (Throw (VErr TypeError VUndefined), <[q := set_results Q rest]> h).
Proof.
  intros HQ Hr Ht Hty Hro Hnull Hflag.
  rewrite (query_shift d h q Q r rest opts HQ Hr Ht). f_equal. f_equal.
  rewrite <- (settle_same_options h) by auto with store.
  destruct (tagged_is_object _ _ _ Hty) as [fs ->].
  assert (forall p, get_prop h ro p = Raise (VErr TypeError VUndefined)) as Hraise.
  { intros p. now destruct Hnull as [-> | ->]. }
  destruct (get_prop_truthy h (options Q) "createdDefault" Ht) as [cd Hcd].
  destruct (get_prop_truthy h (or_empty opts) "includeCreated"
              (truthy_or_empty opts)) as [ic Hic].
  unfold settle. simpl typeof. simpl negb. cbv iota.
  rewrite Hty. cbn [bind is_string String.eqb Ascii.eqb Bool.eqb orb negb].
  rewrite Hro, Hic. cbn [bind]. destruct (truthy ic) eqn:Tic.
  - rewrite Hcd. cbn [bind]. now rewrite Hraise.
  - destruct Hflag as [H | H].
    + unfold is_on in H. rewrite Hic in H. congruence.
    + apply is_on_ok in H as (ia & Hia & Tia).
      rewrite Hia. cbn [bind]. rewrite Tia. cbn [bind]. now rewrite Hraise.
Qed.

Lemma query_entry_without_options_witness :
  query 1 store_bare 0 (VObj [("includeCreated", VBool true)]) =
  Some (Throw (VErr TypeError VUndefined),
        <[0 := mkQueryInterface (VObj []) []]> store_bare).
Proof.
  refine (query_entry_without_options store_bare 0
            (mkQueryInterface (VObj [])
               [VObj [("content", VStr "c"); ("type", VStr "Success")]])
            (VObj [("content", VStr "c"); ("type", VStr "Success")])
            VUndefined [] (VObj [("includeCreated", VBool true)]) 0
            eq_refl eq_refl eq_refl eq_refl eq_refl _ _);
    left; reflexivity.
Defined.

(** X8 (a parent that is not a queue, on [$query]).  When a queue with
    nothing pending would delegate and its [parent] is a truthy value that
    is not a [QueryInterface] and carries no function under [$query],
    [$query] throws a [TypeError]; the store is left as it was, and the
    fallback is not called. *)
Theorem query_parent_not_a_queue h q Q opts d p m :
  h !! q = Some Q -> _results Q = [] ->
  is_off h (or_empty opts) "stopPropagation" = true ->
  is_off h (options Q) "stopPropagation" = true ->
  get_prop h (options Q) "parent" = Ok p -> truthy p = true ->
  (forall B, p <> VQueue B) ->
  get_prop h p "$query" = Ok m -> (forall f, m <> VFun f) ->
  query (S d) h q opts = Some (Throw (VErr TypeError VUndefined), h).
Proof.
  intros HQ Hr Ho Ht Hp Tp Hnq Hm Hnf. simpl. rewrite HQ.
  assert (exists f, pick_fallback h (or_empty opts) (options Q) = Ok f) as [f ->].
  { unfold pick_fallback.
    destruct (get_prop_truthy h (or_empty opts) "fallbackFn" (truthy_or_empty opts))
      as [f ->].
    simpl. destruct (truthy f); [eauto |].
    exact (get_prop_ok_any h _ _ "fallbackFn" _ Hp). }
  rewrite Hr, (delegate_to_parent h _ _ p Ho Ht Hp Tp).
  assert (call_fn m [or_empty opts] = Throw (VErr TypeError VUndefined)) as Hcall.
  { destruct m; try reflexivity. now destruct (Hnf f0). }
  destruct p; try (now destruct (Hnq q0)); rewrite Hm; now rewrite Hcall.
Qed.

Lemma query_parent_not_a_queue_witness :
  query 1 store_bad_parent_empty 0 VUndefined =
  Some (Throw (VErr TypeError VUndefined), store_bad_parent_empty).
Proof.
  refine (query_parent_not_a_queue store_bad_parent_empty 0
            (mkQueryInterface (VObj [("parent", VNum 5)]) [])
            VUndefined 0 (VNum 5) VUndefined
            eq_refl eq_refl eq_refl eq_refl eq_refl eq_refl _ eq_refl _);
    discriminate.
Defined.

(** X9 (a parent that is not a queue, on [$clearQueue]).  With
    [propagateClear] and a [parent] that is a truthy value other than a
    [QueryInterface], carrying no function under [$clearQueue], the call
    throws a [TypeError] after it has emptied the queue: the throw leaves
    the queue with nothing pending. *)
Theorem clearQueue_parent_not_a_queue h q Q opts d p m :
  h !! q = Some Q ->
  is_on h (or_empty opts) "propagateClear" = true ->
  get_prop h (options Q) "parent" = Ok p -> truthy p = true ->
  (forall B, p <> VQueue B) ->
  get_prop h p "$clearQueue" = Ok m -> (forall f, m <> VFun f) ->
  clearQueue (S d) h q opts =
  Some (Throw (VErr TypeError VUndefined), <[q := set_results Q []]> h).
Proof.
  intros HQ Hon Hp Tp Hnq Hm Hnf. simpl. rewrite HQ.
  rewrite (propagate_to_on _ _ _ p); [| now read_in h | now read_in h].
  rewrite Tp.
  assert (get_prop (<[q := set_results Q []]> h) p "$clearQueue" = Ok m) as Hm'
    by now read_in h.
  destruct p; try (now destruct (Hnq q0)); rewrite Hm';
    destruct m; try reflexivity; now destruct (Hnf f).
Qed.

Lemma clearQueue_parent_not_a_queue_witness :
  clearQueue 1 store_bad_parent 0 (VObj [("propagateClear", VBool true)]) =
  Some (Throw (VErr TypeError VUndefined),
        <[0 := mkQueryInterface (VObj [("parent", VNum 5)]) []]> store_bad_parent).
Proof.
  refine (clearQueue_parent_not_a_queue store_bad_parent 0
            (mkQueryInterface (VObj [("parent", VNum 5)])
               [entry "Success" (VStr "a") VUndefined])
            (VObj [("propagateClear", VBool true)]) 0 (VNum 5) VUndefined
            eq_refl eq_refl eq_refl eq_refl _ eq_refl _);
    discriminate.
Defined.

(** ** Chains of parents that loop, and chains that end *)





Lemma delegate_to_some h o t p :
  delegate_to h o t = Ok (Some p) ->
  get_prop h t "parent" = Ok p /\ truthy p = true.
Proof.
  unfold delegate_to.
  destruct (get_prop h o "stopPropagation") as [x |]; [| discriminate].
  cbn [bind]. destruct (truthy x); [discriminate |].
  destruct (get_prop h t "stopPropagation") as [y |]; [| discriminate].
  cbn [bind]. destruct (truthy y); [discriminate |].
  destruct (get_prop h t "parent") as [p' |]; [| discriminate].
  cbn [bind]. destruct (truthy p') eqn:Tp; [| discriminate].
  intros H. injection H as <-. now split.
Qed.

(** X12 ([$query] on a chain of parents that ends).  When the parents of a
    queue form a chain of [n] queues ending in one without parent, every
    [$query] on it completes, with a call stack no deeper than [n]. *)
Theorem query_completes_on_chain h opts l : forall q d,
  parent_chain h (q :: l) ->
  exists c h', query (length (q :: l) + d) h q opts = Some (c, h').
Proof.
  induction l as [| B l IH]; intros q d Hc.
  - inversion Hc as [q' Q HQ Hp |]; subst. apply is_off_ok in Hp as (p & Hp & Tp).
    simpl. rewrite HQ.
    destruct (pick_fallback h (or_empty opts) (options Q)) as [f |]; [| eauto].
    destruct (_results Q) as [| r rest]; [| eauto].
    destruct (delegate_to h (or_empty opts) (options Q)) as [[p' |] |] eqn:Hd;
      [| destruct (truthy f); eauto | eauto].
    apply delegate_to_some in Hd as [Hp' Tp']. congruence.
  - inversion Hc as [| q' Q B' l' HQ Hp Hc']; subst.
    change (length (q :: B :: l) + d) with (S (length (B :: l) + d)).
    remember (length (B :: l) + d) as n eqn:Hn.
    cbn [query]. rewrite HQ.
    destruct (pick_fallback h (or_empty opts) (options Q)) as [f |]; [| eauto].
    destruct (_results Q) as [| r rest]; [| eauto].
    destruct (delegate_to h (or_empty opts) (options Q)) as [[p' |] |] eqn:Hd;
      [| destruct (truthy f); eauto | eauto].
    apply delegate_to_some in Hd as [Hp' _].
    rewrite Hp in Hp'. injection Hp' as <-.
    rewrite query_or_empty. subst n. now apply IH.
Qed.

Lemma query_completes_on_chain_witness :
  exists c h', query 2 store_family 1 (VObj [("includeCreated", VBool true)]) =
               Some (c, h').
Proof.
  refine (query_completes_on_chain store_family
            (VObj [("includeCreated", VBool true)]) [0] 1 0 _).
  eapply chain_step; [reflexivity | reflexivity |].
  eapply chain_root; reflexivity.
Defined.

(** ** What the methods leave alone *)

Lemma same_options_dom (h h' : gmap nat QueryInterface) :
  same_options h h' -> dom h' = dom h.
Proof.
  intros Hs. apply set_eq. intros x. rewrite !elem_of_dom.
  specialize (Hs x). unfold is_Some.
  destruct (h !! x), (h' !! x); simpl in Hs; try discriminate; split;
    intros [y Hy]; eauto; discriminate.
Qed.

Lemma query_same_options d h q opts c h' :
  query d h q opts = Some (c, h') -> same_options h h'.
Proof.
  intros H. apply query_effect in H as [-> | (C & QC & r & rest & HC & _ & ->)];
    auto with store.
Qed.

Lemma clearQueue_same_options d h q opts c h' :
  clearQueue d h q opts = Some (c, h') -> same_options h h'.
Proof.
  intros H. apply clearQueue_effect in H as [l ->]. apply same_options_clear_all.
Qed.

(** X13 (queues and options are never touched).  Whatever method is called
    and whatever it gives, the store afterwards holds the same queues as
    before, each with the options it was built with: the methods change
    pending entries only. *)
Theorem methods_keep_queues_and_options (h h' : gmap nat QueryInterface) c :
  (exists q r meta, queueResult h q r meta = Some (c, h')) \/
  (exists q e meta, queueFailure h q e meta = Some (c, h')) \/
  (exists d q opts, clearQueue d h q opts = Some (c, h')) \/
  (exists d q opts, query d h q opts = Some (c, h')) ->
  same_options h h' /\ dom h' = dom h.
Proof.
  intros H. assert (same_options h h') as Hs; [| split; [exact Hs |]].
  - destruct H as [(q & r & meta & H) | [(q & e & meta & H) | [(d & q & o & H) | (d & q & o & H)]]].
    + unfold queueResult in H. destruct (h !! q) as [Q |] eqn:HQ; [| discriminate].
      injection H as _ <-. now apply same_options_insert.
    + unfold queueFailure in H. destruct (h !! q) as [Q |] eqn:HQ; [| discriminate].
      destruct (failure_content h e meta); injection H as _ <-;
        [now apply same_options_insert | apply same_options_refl].
    + exact (clearQueue_same_options d h q o c h' H).
    + exact (query_same_options d h q o c h' H).
  - now apply same_options_dom.
Qed.

Lemma methods_keep_queues_and_options_witness :
  same_options store_busy (clear_all [1; 0] store_busy) /\
  dom (clear_all [1; 0] store_busy) = dom store_busy.
Proof.
  apply (methods_keep_queues_and_options store_busy (clear_all [1; 0] store_busy)
           (Return (Plain (VQueue 1)))).
  right; right; left.
  exists 2, 1, (VObj [("propagateClear", VBool true)]). reflexivity.
Defined.








(** ** How the methods compose *)

Lemma stores_functional h h' call e e' :
  same_options h h' -> stores h call e -> stores h' call e' -> e = e'.
Proof.
  intros Hs. destruct call as [c meta | c meta]; simpl.
  - congruence.
  - intros (c1 & H1 & ->) (c2 & H2 & ->).
    rewrite (failure_content_same_options h h' c meta Hs) in H1. congruence.
Qed.

(** X15 (enqueue and [$query] commute on a queue that has entries).  On a
    queue with an entry pending, a [$queueResult] or [$queueFailure] call
    does not change what the next [$query] gives, and queuing before the
    query or after it leaves the same store: the new entry waits behind the
    older ones. *)
Theorem enqueue_commutes_with_query h q Q r rest call opts d :
  h !! q = Some Q -> _results Q = r :: rest -> truthy (options Q) = true ->
  exists c h_enq h_deq h_both,
    do_enqueue h q call = Some (Return (Plain (VQueue q)), h_enq) /\
    query (S d) h q opts = Some (c, h_deq) /\
    query (S d) h_enq q opts = Some (c, h_both) /\
    do_enqueue h_deq q call = Some (Return (Plain (VQueue q)), h_both).
Proof.
  intros HQ Hr Ht.
  destruct (do_enqueue_spec h q Q call HQ) as (e & He & Henq).
  destruct (do_enqueue_spec (<[q := set_results Q rest]> h) q (set_results Q rest)
              call (lookup_insert_eq _ _ _)) as (e' & He' & Henq').
  assert (e' = e) as ->.
  { symmetry. eapply stores_functional; [| exact He | exact He']. auto with store. }
  exists (run (settle h (or_empty opts) (options Q) r)),
         (<[q := push Q e]> h), (<[q := set_results Q rest]> h),
         (<[q := set_results Q (rest ++ [e])]> h).
  split; [exact Henq |]. split; [| split].
  - rewrite (query_shift d h q Q r rest opts HQ Hr Ht).
    now rewrite <- (settle_same_options h) by auto with store.
  - rewrite (query_shift d _ q (push Q e) r (rest ++ [e]) opts);
      [| apply lookup_insert_eq | simpl; now rewrite Hr | exact Ht].
    rewrite insert_insert_eq. cbn [push set_results options].
    rewrite <- (settle_same_options h); [reflexivity |].
    apply (same_options_insert h q Q (rest ++ [e]) HQ).
  - rewrite Henq', insert_insert_eq. reflexivity.
Qed.

Lemma enqueue_commutes_with_query_witness :
  exists c h_enq h_deq h_both,
    do_enqueue store_rows 0 (QueueFailure (VStr "late") VUndefined) =
    Some (Return (Plain (VQueue 0)), h_enq) /\
    query 1 store_rows 0 VUndefined = Some (c, h_deq) /\
    query 1 h_enq 0 VUndefined = Some (c, h_both) /\
    do_enqueue h_deq 0 (QueueFailure (VStr "late") VUndefined) =
    Some (Return (Plain (VQueue 0)), h_both).
Proof.
  exact (enqueue_commutes_with_query store_rows 0
           (mkQueryInterface (VObj [])
              [entry "Success" (VStr "v")
                 (VObj [("affectedRows", VArr [VNum 1; VNum 2])])])
           (entry "Success" (VStr "v")
              (VObj [("affectedRows", VArr [VNum 1; VNum 2])])) []
           (QueueFailure (VStr "late") VUndefined) VUndefined 0
           eq_refl eq_refl eq_refl).
Defined.

Lemma delegating_after_shift h opts A B C QC r rest :
  delegating h opts A B -> h !! C = Some QC -> _results QC = r :: rest ->
  delegating (<[C := set_results QC rest]> h) opts A B.
Proof.
  intros (Q & HQ & Hr & Ho & Ht & Hp) HC HrC.
  assert (C <> A) as Hne by (intros ->; congruence).
  exists Q. rewrite lookup_insert_ne by exact Hne.
  split; [exact HQ |]. split; [exact Hr |].
  split; [now read_in h |]. split; now read_in h.
Qed.

(** X16 (children of one parent share its entries).  Two queues with
    nothing pending that delegate to the same parent draw from the same
    pending entries: a [$query] on the first takes the parent's oldest
    entry, and a [$query] on the second then gets the one that followed. *)
Theorem shared_parent_serves_in_order h opts A A' B QB c1 m1 c2 m2 rest d :
  delegating h opts A B -> delegating h opts A' B ->
  h !! B = Some QB ->
  _results QB = entry "Success" c1 m1 :: entry "Success" c2 m2 :: rest ->
  truthy (options QB) = true ->
  is_off h (or_empty opts) "includeCreated" = true ->
  is_off h (or_empty opts) "includeAffectedRows" = true ->
  exists h1,
    query (S (S d)) h A opts = Some (Return (Resolved c1), h1) /\
    query (S (S d)) h1 A' opts =
    Some (Return (Resolved c2), <[B := set_results QB rest]> h).
Proof.
  intros HA HA' HB Hr Ht Hic Hia.
  exists (<[B := set_results QB (entry "Success" c2 m2 :: rest)]> h). split.
  - rewrite (delegating_step h opts A B (S d) HA).
    now apply (query_head_plain h B QB (entry "Success" c1 m1) c1).
  - rewrite (delegating_step _ opts A' B (S d)
               (delegating_after_shift h opts A' B B QB _ _ HA' HB Hr)).
    rewrite (query_head_plain _ B (set_results QB (entry "Success" c2 m2 :: rest))
               (entry "Success" c2 m2) c2 rest opts d);
      try reflexivity; try exact Ht; try (now read_in h).
    + now rewrite insert_insert_eq.
    + apply lookup_insert_eq.
Qed.

Lemma shared_parent_serves_in_order_witness :
  exists h1,
    query 2 store_siblings 1 VUndefined = Some (Return (Resolved (VStr "first")), h1) /\
    query 2 h1 2 VUndefined =
    Some (Return (Resolved (VStr "second")),
          <[0 := mkQueryInterface (VObj []) []]> store_siblings).
Proof.
  refine (shared_parent_serves_in_order store_siblings VUndefined 1 2 0
            (mkQueryInterface (VObj [])
               [entry "Success" (VStr "first") VUndefined;
                entry "Success" (VStr "second") VUndefined])
            (VStr "first") VUndefined (VStr "second") VUndefined [] 0
            _ _ eq_refl eq_refl eq_refl eq_refl eq_refl);
    exists (mkQueryInterface (VObj [("parent", VQueue 0)]) []); repeat split.
Defined.

(** X17 (rejections are errors, and are not wrapped twice).  Unless
    [convertNonErrors] is [false], what [$queueFailure] stores is an
    [Error]; and queuing that stored content again, with any options,
    stores it unchanged: a wrapper is never wrapped a second time. *)
Theorem failure_content_error_typed h e o stored :
  failure_content h e o = Ok stored ->
  o = VUndefined \/ get_prop h o "convertNonErrors" <> Ok (VBool false) ->
  instanceof_Error stored = true /\
  forall o', failure_content h stored o' = Ok stored.
Proof.
  intros Hst Hflag.
  assert (instanceof_Error stored = true) as Herr.
  { destruct (failure_content_cases h e o stored Hst) as [-> | ->]; [| reflexivity].
    destruct (instanceof_Error e) eqn:He; [reflexivity |].
    destruct (failure_content_spec h e o) as (s & Hs & Hiff & _).
    rewrite Hst in Hs. injection Hs as <-.
    assert (e = VErr BaseError e) as Hw by (apply Hiff; now split).
    symmetry in Hw. now apply wrapper_neq in Hw. }
  split; [exact Herr |]. intros o'.
  destruct (failure_content_spec h stored o') as (s & Hs & Hiff & _).
  destruct (failure_content_cases h stored o' s Hs) as [-> | ->]; [exact Hs |].
  assert (instanceof_Error stored = false) by now apply Hiff. congruence.
Qed.

Lemma failure_content_error_typed_witness :
  instanceof_Error (VErr BaseError (VStr "boom")) = true /\
  forall o', failure_content ∅ (VErr BaseError (VStr "boom")) o' =
             Ok (VErr BaseError (VStr "boom")).
Proof.
  refine (failure_content_error_typed ∅ (VStr "boom") VUndefined
            (VErr BaseError (VStr "boom")) eq_refl _).
  now left.
Defined.

(** X18 (a new queue).  [new QueryInterface(options)] adds one queue to the
    store and touches no other; a result queued on it comes back from the
    next [$query()], which leaves the new queue as it was built. *)
Theorem new_queue_round_trip h opts c meta d :
  h !! (new_QueryInterface h opts).1 = None /\
  (forall x, x <> (new_QueryInterface h opts).1 ->
     (new_QueryInterface h opts).2 !! x = h !! x) /\
  exists h2,
    queueResult (new_QueryInterface h opts).2 (new_QueryInterface h opts).1 c meta =
    Some (Return (Plain (VQueue (new_QueryInterface h opts).1)), h2) /\
    query (S d) h2 (new_QueryInterface h opts).1 VUndefined =
    Some (Return (Resolved c), (new_QueryInterface h opts).2).
Proof.
  unfold new_QueryInterface. cbn [fst snd].
  set (q := fresh (dom h)). set (Q := mkQueryInterface (or_empty opts) []).
  split; [apply not_elem_of_dom, is_fresh |].
  split; [intros x Hx; now rewrite lookup_insert_ne |].
  unfold queueResult. rewrite lookup_insert_eq. eexists. split; [reflexivity |].
  rewrite insert_insert_eq.
  rewrite (query_head_plain _ q (push Q (entry "Success" c meta))
             (entry "Success" c meta) c [] VUndefined d);
    try reflexivity.
  - now rewrite insert_insert_eq.
  - apply lookup_insert_eq.
  - apply truthy_or_empty.
Qed.

(** X19 (clearing twice).  A completed [$clearQueue] call, repeated on the
    store it has left, gives the same again and changes nothing. *)
Theorem clearQueue_idempotent d : forall h q opts c h',
  clearQueue d h q opts = Some (c, h') ->
  clearQueue d h' q opts = Some (c, h').
Proof.
  induction d as [| d IH]; intros h q opts c h' H; [discriminate |].
  pose proof (clearQueue_same_options _ _ _ _ _ _ H) as Hs.
  pose proof H as Heff. apply clearQueue_effect in Heff as [l Hl].
  simpl in H. destruct (h !! q) as [Q |] eqn:HQ; [| discriminate].
  assert (h' !! q = Some (set_results Q [])) as HQ'.
  { rewrite Hl. apply clear_all_lookup; [apply elem_of_cons; now left | exact HQ]. }
  assert (same_options (<[q := set_results Q []]> h) h') as Hs1.
  { intros x. rewrite <- (Hs x). symmetry. now apply same_options_insert. }
  simpl. rewrite HQ'. cbn [set_results options].
  rewrite (insert_id h' q _ HQ').
  assert (propagate_to h' (or_empty opts) (options Q) =
          propagate_to (<[q := set_results Q []]> h) (or_empty opts) (options Q)) as ->.
  { unfold propagate_to.
    rewrite <- (get_prop_same_options _ h' _ "propagateClear" Hs1) by done.
    destruct (get_prop _ (or_empty opts) "propagateClear") as [pc |]; [| reflexivity].
    cbn [bind]. destruct (truthy pc); [| reflexivity].
    now rewrite <- (get_prop_same_options _ h' _ "parent" Hs1) by done. }
  destruct (propagate_to _ _ _) as [[p |] | e].
  - destruct p;
      try (rewrite <- (get_prop_same_options _ h' _ "$clearQueue" Hs1) by done;
           destruct (get_prop _ _ "$clearQueue") as [[] |];
           try discriminate; now injection H as <- <-).
    destruct (clearQueue d _ q0 _) as [[c2 h2] |] eqn:Hrec; [| discriminate].
    assert (h2 = h') as -> by (destruct c2; now injection H as _ <-).
    now rewrite (IH _ _ _ _ _ Hrec).
  - now injection H as <- <-.
  - now injection H as <- <-.
Qed.

Lemma clearQueue_idempotent_witness :
  clearQueue 2 (clear_all [1; 0] store_busy) 1 (VObj [("propagateClear", VBool true)]) =
  Some (Return (Plain (VQueue 1)), clear_all [1; 0] store_busy).
Proof.
  exact (clearQueue_idempotent 2 store_busy 1 (VObj [("propagateClear", VBool true)])
           (Return (Plain (VQueue 1))) (clear_all [1; 0] store_busy) eq_refl).
Defined.

(** X20 (nothing is left after a clear).  On a queue without parent and
    without fallback, whatever was pending and whatever the options of the
    [$clearQueue] call, the [$query] that follows it throws
    [EmptyQueryQueueError]. *)
Theorem clearQueue_then_query_exhausted h q Q copts opts d d' :
  h !! q = Some Q ->
  is_off h (options Q) "parent" = true ->
  is_off h (options Q) "fallbackFn" = true ->
  is_off h (or_empty opts) "fallbackFn" = true ->
  clearQueue (S d) h q copts =
  Some (Return (Plain (VQueue q)), <[q := set_results Q []]> h) /\
  query (S d') (<[q := set_results Q []]> h) q opts =
  Some (Throw (VErr EmptyQueryQueueError VUndefined), <[q := set_results Q []]> h).
Proof.
  intros HQ Hp Hf Hfo. split.
  - destruct (is_on h (or_empty copts) "propagateClear") eqn:Hon.
    + rewrite <- (clear_one_insert h q Q HQ).
      exact (clearQueue_chain copts [] q h d (chain_root h q Q HQ Hp) Hon).
    + apply clearQueue_local; [exact HQ |].
      unfold is_on in Hon. unfold is_off.
      destruct (get_prop_truthy h (or_empty copts) "propagateClear"
                  (truthy_or_empty copts)) as [x Hx].
      rewrite Hx in *. now rewrite Hon.
  - destruct (pick_fallback_none (<[q := set_results Q []]> h) opts (options Q))
      as (fb & Hfb & Tfb); [now read_in h | now read_in h |].
    rewrite (query_exhausted _ q (set_results Q []) opts fb d');
      [now rewrite Tfb | apply lookup_insert_eq | reflexivity | | exact Hfb].
    apply delegate_to_none. right; right. cbn [set_results options]. now read_in h.
Qed.

Lemma clearQueue_then_query_exhausted_witness :
  clearQueue 1 store_rows 0 VUndefined =
  Some (Return (Plain (VQueue 0)), <[0 := mkQueryInterface (VObj []) []]> store_rows) /\
  query 1 (<[0 := mkQueryInterface (VObj []) []]> store_rows) 0 VUndefined =
  Some (Throw (VErr EmptyQueryQueueError VUndefined),
        <[0 := mkQueryInterface (VObj []) []]> store_rows).
Proof.
  exact (clearQueue_then_query_exhausted store_rows 0
           (mkQueryInterface (VObj [])
              [entry "Success" (VStr "v")
                 (VObj [("affectedRows", VArr [VNum 1; VNum 2])])])
           VUndefined VUndefined 0 0 eq_refl eq_refl eq_refl eq_refl).
Defined.
